(** * Tate algebra terms and series: a shallow embedding

    The development follows [TateAlgebraTerm] and [TateAlgebraElement]: a term
    is a coefficient with an exponent tuple, a series is a finite mapping from
    exponent tuples to coefficients with an absolute precision.  The base ring,
    its fraction field and the polynomial ring that carries the mappings are
    collaborators of the two classes; they enter as an interface
    ([BaseRing]) and as finite maps. *)

From Stdlib Require Import ZArith QArith Qcanon Qround.
From stdpp Require Import base numbers option list sorting gmap strings.

Local Open Scope Z_scope.

(** ** Numbers extended by the two infinities

    Valuations and precisions are Sage numbers or [Infinity]; negating a
    valuation, as the term comparison does, also reaches [-Infinity]. *)

Inductive ext (A : Type) : Type :=
  | NInf
  | Fin (a : A)
  | PInf.
Arguments NInf {A}.
Arguments Fin {A} a.
Arguments PInf {A}.

Section ext_order.
Context {A : Type} (cmpA : A → A → comparison).

(** Python 2's [cmp] on extended numbers. *)
Definition xcmp (x y : ext A) : comparison :=
  match x, y with
  | NInf, NInf => Eq
  | NInf, _ => Lt
  | Fin _, NInf => Gt
  | Fin a, Fin b => cmpA a b
  | Fin _, PInf => Lt
  | PInf, PInf => Eq
  | PInf, _ => Gt
  end.

Definition xltb (x y : ext A) : bool :=
  match xcmp x y with Lt => true | _ => false end.

(** [min(x, y)] keeps [x] unless [y < x]; [max(x, y)] keeps [x] unless
    [y > x]. *)
Definition xmin (x y : ext A) : ext A := if xltb y x then y else x.
Definition xmax (x y : ext A) : ext A := if xltb x y then y else x.
End ext_order.

Definition Qc_of_Z (z : Z) : Qc := Q2Qc (inject_Z z).

(** Coefficient valuations are integers or [Infinity]; term valuations and
    precisions are rationals or an infinity. *)
Definition xinj (v : ext Z) : ext Qc :=
  match v with
  | NInf => NInf
  | Fin z => Fin (Qc_of_Z z)
  | PInf => PInf
  end.

Definition xopp (x : ext Qc) : ext Qc :=
  match x with
  | NInf => PInf
  | Fin q => Fin (- q)%Qc
  | PInf => NInf
  end.

(** Sum of extended rationals.  Sage raises on [Infinity + (-Infinity)]; the
    operations below only add a finite number to a valuation or a precision,
    and for definiteness [PInf] wins here. *)
Definition xadd (x y : ext Qc) : ext Qc :=
  match x, y with
  | PInf, _ | _, PInf => PInf
  | NInf, _ | _, NInf => NInf
  | Fin a, Fin b => Fin (a + b)%Qc
  end.

Definition xsub (x y : ext Qc) : ext Qc := xadd x (xopp y).

Abbreviation vcmp := (xcmp Qccompare).
Abbreviation vltb := (xltb Qccompare).
Abbreviation vmin := (xmin Qccompare).
Abbreviation vmax := (xmax Qccompare).

(** Python's [cmp] on tuples of integers, the shape of a sort key. *)
Fixpoint tuple_cmp (a b : list Z) : comparison :=
  match a, b with
  | [], [] => Eq
  | [], _ :: _ => Lt
  | _ :: _, [] => Gt
  | x :: a', y :: b' =>
      match Z.compare x y with
      | Eq => tuple_cmp a' b'
      | c => c
      end
  end.

(** ** Exceptions and results *)

Inductive exn : Type :=
  | ValueError (msg : string)
  | TypeError (msg : string)
  | AttributeError (msg : string)
  | OverflowError (msg : string)
  | ZeroDivisionError (msg : string).

(** A call returns a value, raises, or is still running when the steps
    granted to a [while] loop are used up ([NoFuel]). *)
Inductive result (A : Type) : Type :=
  | Ok (a : A)
  | Raise (e : exn)
  | NoFuel.
Arguments Ok {A} a.
Arguments Raise {A} e.
Arguments NoFuel {A}.

Global Instance result_ret : MRet result := λ A a, Ok a.
Global Instance result_bind : MBind result := λ A B f m,
  match m with
  | Ok a => f a
  | Raise e => Raise e
  | NoFuel => NoFuel
  end.

(** Whether a call returns. *)
Definition returns {A : Type} (r : result A) : bool :=
  match r with
  | Ok _ => true
  | _ => false
  end.

(** ** The base ring

    [K] carries the elements of the fraction field of the base ring; the
    members below are the operations the two classes call on coefficients. *)
Class BaseRing : Type := {
  K : Type;
  Kadd : K → K → K;
  Ksub : K → K → K;
  Kmul : K → K → K;
  Kdiv : K → K → K;
  Kopp : K → K;
  (** [c == 0] *)
  Kis_zero : K → bool;
  (** coercion of an integer *)
  Kof_Z : Z → K;
  (** [base_ring().is_field()] *)
  is_field : bool;
  (** [c.valuation()] *)
  Kvaluation : K → ext Z;
  (** [uniformizer_pow(v)] *)
  uniformizer_pow : ext Z → K;
  (** [c.val_unit()] *)
  val_unit : K → Z * K;
  (** [c.inverse_of_unit()] *)
  Kinverse_of_unit : K → K;
  (** [c.add_bigoh(prec)] *)
  Kadd_bigoh : K → ext Qc → K;
  (** [c << n] in the fraction field *)
  Klshift : K → Z → K;
  (** [base(c) >> n]: the truncating shift of the base ring *)
  Krshift_base : K → Z → K
}.

(** ** The ambient algebra

    The data of a parent that the two classes read.  Parents are unique
    objects in Sage; [uid] stands for the identity that [is] tests. *)
Record TateAlgebra : Type := {
  uid : nat;
  variable_names : list string;
  log_radii : list Qc;
  precision_cap : Z;
  (** [term_order().sortkey] *)
  sortkey : list nat → list Z;
  (** [base_ring().absolute_e()] *)
  absolute_e : positive
}.

Definition ngens (A : TateAlgebra) : nat := length (variable_names A).
Definition parent_is (A B : TateAlgebra) : bool := Nat.eqb (uid A) (uid B).
Definition cap_prec (A : TateAlgebra) : ext Qc := Fin (Qc_of_Z (precision_cap A)).

(** ** Exponent tuples ([ETuple])

    Modelled from the spec: [ETuple], Sage's tuple of exponents, is not part
    of the two classes.  It is a tuple of non-negative integers with the
    component-wise sum, difference, min and max.  Its components are C ints,
    and [eadd] refuses a sum that leaves their range with an
    [OverflowError]. *)

Definition INT_MAX : Z := 2147483647.

Definition eadd (e f : list nat) : result (list nat) :=
  let s := zip_with Nat.add e f in
  if forallb (λ n, Z.of_nat n <=? INT_MAX) s then Ok s
  else Raise (OverflowError "value too large to convert to int").
Definition esub (e f : list nat) : list nat := zip_with Nat.sub e f.
Definition emin (e f : list nat) : list nat := zip_with Nat.min e f.
Definition emax (e f : list nat) : list nat := zip_with Nat.max e f.

(** [sum(e[i] * log_radii[i] for i in range(ngens))] *)
Definition weighted_degree (A : TateAlgebra) (e : list nat) : Qc :=
  foldl (λ acc i, acc + Qc_of_Z (Z.of_nat (nth i e 0%nat)) * nth i (log_radii A) 0)%Qc
        0%Qc (seq 0 (ngens A)).

(** ** The polynomial ring of the parent

    Modelled from the spec: the polynomial ring [S = parent._polynomial_ring]
    and its arithmetic are not part of the two classes.  A polynomial is the
    finite mapping from exponent tuples to coefficients of the data model,
    kept reduced (no entry with a zero coefficient); sum and difference union
    the mappings coefficient-wise, the product is the full polynomial
    product, whose exponents are sums of integers. *)
Section Polynomials.
Context `{BaseRing}.

Definition nz (c : K) : option K := if Kis_zero c then None else Some c.

(** [p.map_coefficients(f)] *)
Definition poly_map (f : K → K) (p : gmap (list nat) K) : gmap (list nat) K :=
  omap (λ c, nz (f c)) p.

Definition poly_add (p q : gmap (list nat) K) : gmap (list nat) K :=
  union_with (λ a b, nz (Kadd a b)) p q.

Definition poly_sub (p q : gmap (list nat) K) : gmap (list nat) K :=
  merge (λ a b,
    match a, b with
    | Some x, Some y => nz (Ksub x y)
    | Some x, None => Some x
    | None, Some y => nz (Kopp y)
    | None, None => None
    end) p q.

(** [p * c] for a coefficient [c] *)
Definition poly_scale (p : gmap (list nat) K) (c : K) : gmap (list nat) K :=
  poly_map (λ a, Kmul a c) p.

(** [c * S.monomial(e)] *)
Definition poly_monomial (c : K) (e : list nat) : gmap (list nat) K :=
  match nz c with
  | Some c' => {[ e := c' ]}
  | None => ∅
  end.

(** [S(c)] for a coefficient [c] *)
Definition poly_const (A : TateAlgebra) (c : K) : gmap (list nat) K :=
  poly_monomial c (replicate (ngens A) 0%nat).

Definition poly_mul (p q : gmap (list nat) K) : gmap (list nat) K :=
  foldr (λ '(e1, c1) acc,
           foldr (λ '(e2, c2) acc',
                    poly_add acc' (poly_monomial (Kmul c1 c2) (zip_with Nat.add e1 e2)))
                 acc (map_to_list q))
        ∅ (map_to_list p).

(** [p == 0] *)
Definition poly_is_zero (p : gmap (list nat) K) : bool := bool_decide (p = ∅).
End Polynomials.

(** ** Terms *)
Module TateAlgebraTerm.
Section Term.
Context `{BaseRing}.

Record t : Type := {
  _parent : TateAlgebra;
  _coeff : K;
  _exponent : list nat
}.

Definition __init__ (parent : TateAlgebra) (coeff : K) (exponent : list nat)
  : result t :=
  if bool_decide (length exponent ≠ ngens parent)
  then Raise (ValueError "The length of the exponent does not match the number of variables")
  else Ok {| _parent := parent; _coeff := coeff; _exponent := exponent |}.

Definition coefficient (self : t) : K := _coeff self.
Definition exponent (self : t) : list nat := _exponent self.

Definition valuation (self : t) : ext Qc :=
  let parent := _parent self in
  xsub (xinj (Kvaluation (_coeff self)))
       (Fin (weighted_degree parent (_exponent self))).

Definition _mul_ (self other : t) : result t :=
  exponent ← eadd (_exponent self) (exponent other);
  __init__ (_parent self) (Kmul (_coeff self) (coefficient other)) exponent.

Definition _cmp_ (self other : t) : comparison :=
  let c := vcmp (xopp (valuation self)) (xopp (valuation other)) in
  match c with
  | Eq =>
      let T := sortkey (_parent self) in
      tuple_cmp (T (_exponent self)) (T (exponent other))
  | _ => c
  end.

(** [any(e[i] > 0 and f[i] > 0 for i in range(n))] and
    [any(e[i] < f[i] for i in range(n))], the two loops over the variables. *)
Definition share_variable (n : nat) (e f : list nat) : bool :=
  existsb (λ i, Nat.ltb 0 (nth i e 0%nat) && Nat.ltb 0 (nth i f 0%nat)) (seq 0 n).
Definition some_smaller (n : nat) (e f : list nat) : bool :=
  existsb (λ i, Nat.ltb (nth i e 0%nat) (nth i f 0%nat)) (seq 0 n).

Definition is_zero_val (v : ext Qc) : bool :=
  match vcmp v (Fin 0%Qc) with Eq => true | _ => false end.

Definition is_coprime_with (self other : t) : bool :=
  if share_variable (ngens (_parent self)) (_exponent self) (exponent other)
  then false
  else if is_field then true
  else is_zero_val (valuation self) || is_zero_val (valuation other).

Definition gcd (self other : t) : result t :=
  let exponent := emin (_exponent self) (exponent other) in
  let val := xmin Z.compare (Kvaluation (_coeff self))
                  (Kvaluation (coefficient other)) in
  __init__ (_parent self) (uniformizer_pow val) exponent.

Definition lcm (self other : t) : result t :=
  let exponent := emax (_exponent self) (exponent other) in
  let val := xmax Z.compare (Kvaluation (_coeff self))
                  (Kvaluation (coefficient other)) in
  __init__ (_parent self) (uniformizer_pow val) exponent.

Definition is_divisible_by (self other : t) (integral : bool) : bool :=
  let parent := _parent self in
  if (integral || negb is_field) && vltb (valuation self) (valuation other)
  then false
  else negb (some_smaller (ngens parent) (_exponent self) (exponent other)).

Definition divides (self other : t) : bool := is_divisible_by other self false.

(** [a / b] on coefficients: the quotient of the fraction field, which
    refuses a zero divisor. *)
Definition truediv (a b : K) : result K :=
  if Kis_zero b then Raise (ZeroDivisionError "division by zero")
  else Ok (Kdiv a b).

Definition __floordiv__ (self other : t) : result t :=
  let parent := _parent self in
  if negb is_field && vltb (valuation self) (valuation other)
  then Raise (ValueError "The division is not exact")
  else if some_smaller (ngens parent) (exponent self) (exponent other)
  then Raise (ValueError "The division is not exact")
  else
    let exponent := esub (exponent self) (exponent other) in
    coeff ← truediv (coefficient self) (coefficient other);
    __init__ parent coeff exponent.
End Term.
End TateAlgebraTerm.

(** ** Series *)
Module TateAlgebraElement.
Section Element.
Context `{BaseRing}.

(** The fields of a series.  The memo [_terms] of [terms()] is a function of
    [_poly] and is recomputed instead of stored. *)
Record t : Type := {
  _parent : TateAlgebra;
  _poly : gmap (list nat) K;
  _prec : ext Qc
}.

(** What [__init__] is given as [x]: a series, a term, or anything else,
    which it hands to the polynomial ring ([S(x)]). *)
Inductive init_arg : Type :=
  | OfElement (x : t)
  | OfTerm (x : TateAlgebraTerm.t)
  | OfRaw (p : gmap (list nat) K).

Definition names_eq (a b : list string) : bool := bool_decide (a = b).

(** [parent._base.absolute_e() / xparent.base_ring().absolute_e()] *)
Definition e_ratio (parent xparent : TateAlgebra) : Qc :=
  Q2Qc (Zpos (absolute_e parent) # absolute_e xparent).

(** The loop that raises "Cannot restrict to a bigger domain". *)
Definition bigger_domain (parent xparent : TateAlgebra) (ratio : Qc) : bool :=
  existsb (λ i,
             match (nth i (log_radii parent) 0 ?= nth i (log_radii xparent) 0 * ratio)%Qc with
             | Gt => true
             | _ => false
             end)
          (seq 0 (ngens parent)).

(** The branches of [__init__] on [x]: the polynomial they assign to
    [_poly] ([None] when no branch assigns it) and the precision.  The
    coefficients of every algebra are carried by [K], so the conversion
    [S(xc._poly)] keeps the mapping. *)
Definition init_source (parent : TateAlgebra) (x : init_arg)
  : result (option (gmap (list nat) K) * ext Qc) :=
  match x with
  | OfElement xc =>
      let xparent := _parent xc in
      if parent_is xparent parent then Ok (Some (_poly xc), _prec xc)
      else if names_eq (variable_names xparent) (variable_names parent) then
        let ratio := e_ratio parent xparent in
        if bigger_domain parent xparent ratio
        then Raise (ValueError "Cannot restrict to a bigger domain")
        else Ok (Some (_poly xc),
                 match _prec xc with
                 | Fin q => Fin (Qc_of_Z (Qceiling (q * ratio)%Qc))
                 | inf => inf
                 end)
      else Raise (TypeError "Variable names do not match")
  | OfTerm x =>
      let xparent := TateAlgebraTerm._parent x in
      if names_eq (variable_names xparent) (variable_names parent) then
        let ratio := e_ratio parent xparent in
        if bigger_domain parent xparent ratio
        then Raise (ValueError "Cannot restrict to a bigger domain")
        else Ok (Some (poly_monomial (TateAlgebraTerm.coefficient x)
                                     (TateAlgebraTerm.exponent x)), PInf)
      else Ok (None, PInf)
  | OfRaw p => Ok (Some p, PInf)
  end.

(** The end of [__init__]: the requested precision and the reduction of the
    coefficients.  With [_poly] unassigned the reduction fails; with
    [reduce=False] the failure would surface at the first use instead. *)
Definition init_finish (parent : TateAlgebra) (poly : option (gmap (list nat) K))
    (prec0 : ext Qc) (prec : option (ext Qc)) (reduce : bool) : result t :=
  let prec1 := match prec with Some p => vmin prec0 p | None => prec0 end in
  match poly with
  | None => Raise (AttributeError "_poly is not assigned")
  | Some p =>
      Ok {| _parent := parent;
            _poly := if reduce then poly_map (λ c, Kadd_bigoh c prec1) p else p;
            _prec := prec1 |}
  end.

Definition __init__ (parent : TateAlgebra) (x : init_arg)
    (prec : option (ext Qc)) (reduce : bool) : result t :=
  '(poly, prec0) ← init_source parent x;
  init_finish parent poly prec0 prec reduce.

(** [parent(p, prec, reduce=...)] for a polynomial [p]: the last branch of
    [__init__], which cannot raise (see [init_raw]). *)
Definition make (parent : TateAlgebra) (p : gmap (list nat) K) (prec : ext Qc)
    (reduce : bool) : t :=
  let prec1 := vmin PInf prec in
  {| _parent := parent;
     _poly := if reduce then poly_map (λ c, Kadd_bigoh c prec1) p else p;
     _prec := prec1 |}.

Definition polynomial (self : t) : gmap (list nat) K := _poly self.
Definition dict (self : t) : gmap (list nat) K := _poly self.
Definition precision_absolute (self : t) : ext Qc := _prec self.

Definition _add_ (self other : t) : t :=
  make (_parent self) (poly_add (_poly self) (polynomial other))
       (vmin (_prec self) (precision_absolute other)) true.

Definition _neg_ (self : t) : t :=
  make (_parent self) (poly_map Kopp (_poly self)) (_prec self) false.

Definition _sub_ (self other : t) : t :=
  make (_parent self) (poly_sub (_poly self) (polynomial other))
       (vmin (_prec self) (precision_absolute other)) true.

(** [is_zero()] with the default [prec=None]. *)
Definition is_zero0 (self : t) : bool := poly_is_zero (_poly self).

(** [a >= b] in the term order; [sort(reverse=True)] puts [a] first. *)
Definition term_ge (a b : TateAlgebraTerm.t) : Prop :=
  TateAlgebraTerm._cmp_ a b ≠ Lt.

Global Instance term_ge_dec a b : Decision (term_ge a b).
Proof. unfold term_ge. solve_decision. Defined.

(** The keys of a polynomial of [S] have [ngens] components, so the length
    test in the constructor of a term passes; the terms are built
    directly. *)
Definition terms (self : t) : list TateAlgebraTerm.t :=
  if is_zero0 self then []
  else
    let parent := _parent self in
    merge_sort term_ge
      (map (λ '(e, c), {| TateAlgebraTerm._parent := parent;
                          TateAlgebraTerm._coeff := c;
                          TateAlgebraTerm._exponent := e |})
           (map_to_list (dict self))).

Definition coefficients (self : t) : list K :=
  map TateAlgebraTerm.coefficient (terms self).

Definition leading_term (self : t) : option TateAlgebraTerm.t :=
  if is_zero0 self then None else head (terms self).

(** [leading_term()] is a term when the series is not zero
    ([leading_term_nonzero]); the other branch is not reached. *)
Definition valuation (self : t) : ext Qc :=
  let cap := cap_prec (_parent self) in
  if is_zero0 self then cap
  else match leading_term self with
       | Some lt => vmin (TateAlgebraTerm.valuation lt) cap
       | None => cap
       end.

Definition is_zero (self : t) (prec : option (ext Qc)) : bool :=
  match prec with
  | None => poly_is_zero (_poly self)
  | Some prec => negb (vltb (valuation self) prec)
  end.

Definition precision_relative (self : t) : ext Qc :=
  xsub (_prec self) (valuation self).

(** On the zero series the code calls [self.base_ring(0)]: [base_ring] is a
    method without parameters, and the call with an argument is refused. *)
Definition leading_coefficient (self : t) : result K :=
  if is_zero self None
  then Raise (TypeError "base_ring() takes no arguments (1 given)")
  else match leading_term self with
       | Some lt => Ok (TateAlgebraTerm.coefficient lt)
       | None => Raise (AttributeError "None has no coefficient")
       end.

Definition _mul_ (self other : t) : t :=
  let prec := vmin (xadd (_prec self) (valuation other))
                   (xadd (precision_absolute other) (valuation self)) in
  make (_parent self) (poly_mul (_poly self) (polynomial other)) prec true.

(** [right] arrives converted to the base ring. *)
Definition _lmul_ (self : t) (right : K) : t :=
  let other := right in
  let prec := xadd (_prec self) (xinj (Kvaluation other)) in
  make (_parent self) (poly_scale (_poly self) other) prec true.

(** [base(c)]: the conversion of a coefficient to the base ring, which
    refuses an element of negative valuation. *)
Definition to_base (c : K) : result K :=
  if xltb Z.compare (Kvaluation c) (Fin 0)
  then Raise (ValueError "negative valuation")
  else Ok c.

(** The loop [for exp, c in self._poly.dict().iteritems()] of [_lshift] over
    a base ring that is not a field. *)
Fixpoint lshift_items (parent : TateAlgebra) (n : Z) (items : list (list nat * K))
    (coeffs : gmap (list nat) K) : result (gmap (list nat) K) :=
  match items with
  | [] => Ok coeffs
  | (exp, c) :: items' =>
      let minval := Qceiling (weighted_degree parent exp) in
      b ← to_base c;
      lshift_items parent n items'
        (<[ exp := Klshift (Krshift_base b (minval - n)) minval ]> coeffs)
  end.

(** The polynomial ring drops the zero coefficients of the dict it is
    given. *)
Definition _lshift (self : t) (n : Z) : result t :=
  let parent := _parent self in
  if is_field then
    let poly := poly_map (λ c, Klshift c n) (_poly self) in
    Ok (make parent poly (xadd (_prec self) (Fin (Qc_of_Z n))) false)
  else
    coeffs ← lshift_items parent n (map_to_list (dict self)) ∅;
    Ok (make parent (omap nz coeffs) (xadd (_prec self) (Fin (Qc_of_Z n))) false).

Definition __lshift__ (self : t) (n : Z) : result t := _lshift self n.
Definition __rshift__ (self : t) (n : Z) : result t := _lshift self (- n).

Definition add_bigoh (self : t) (n : ext Qc) : result t :=
  __init__ (_parent self) (OfElement self) (Some n) true.
(** Python's [max] of a sequence. *)
Definition py_max (l : list nat) : result nat :=
  match l with
  | [] => Raise (ValueError "max() arg is an empty sequence")
  | x :: l' => Ok (foldl Nat.max x l')
  end.

Definition is_unit (self : t) : result bool :=
  if is_zero self None then Ok false
  else
    match leading_term self with
    | None => Raise (AttributeError "None has no exponent")
    | Some t =>
        m ← py_max (TateAlgebraTerm.exponent t);
        if negb (Nat.eqb m 0) then Ok false
        else if negb is_field && vltb (Fin 0%Qc) (TateAlgebraTerm.valuation t)
        then Ok false
        else Ok true
    end.

(** The loop [while prec < cap: prec *= 2; inv = 2*inv - self*inv*inv].
    The integer [2] acts on [inv] through [_lmul_]. *)
Fixpoint newton (fuel : nat) (cap prec : Z) (self inv : t) : result t :=
  if prec <? cap then
    match fuel with
    | O => NoFuel
    | S fuel' =>
        let prec := prec * 2 in
        let inv := _sub_ (_lmul_ inv (Kof_Z 2)) (_mul_ (_mul_ self inv) inv) in
        newton fuel' cap prec self inv
    end
  else Ok inv.

(** The loop doubles [prec] from 1, so [cap] rounds are enough
    ([newton_returns]). *)
Definition inverse_of_unit (self : t) : result t :=
  u ← is_unit self;
  if negb u then Raise (ValueError "This series in not invertible")
  else
    match leading_term self with
    | None => Raise (AttributeError "None has no coefficient")
    | Some t =>
        let c := TateAlgebraTerm.coefficient t in
        let parent := _parent self in
        let '(v, c) := val_unit c in
        let cap := precision_cap parent in
        let inv := make parent (poly_const parent (Kinverse_of_unit c))
                        (cap_prec parent) true in
        x ← add_bigoh self (cap_prec parent);
        let prec := 1 in
        inv ← newton (Z.to_nat cap) cap prec self inv;
        __lshift__ inv v
    end.

(** A term met by an operator of series is converted by the parent. *)
Definition of_term (parent : TateAlgebra) (x : TateAlgebraTerm.t) : result t :=
  __init__ parent (OfTerm x) None true.

(** The [for i in range(len(divisors))] scan of [quo_rem]: the first index
    whose leading term divides [lt]; [None] is the [else] of the [for]. *)
Fixpoint first_divisor (lt : TateAlgebraTerm.t) (integral : bool) (i : nat)
    (ltds : list (option TateAlgebraTerm.t)) : result (option (nat * TateAlgebraTerm.t)) :=
  match ltds with
  | [] => Ok None
  | None :: _ => Raise (TypeError "no common parent for a term and None")
  | Some d :: ltds' =>
      if TateAlgebraTerm.is_divisible_by lt d integral then Ok (Some (i, d))
      else first_divisor lt integral (S i) ltds'
  end.

(** The loop [while not f.is_zero()] of [quo_rem]. *)
Fixpoint quo_rem_loop (fuel : nat) (parent : TateAlgebra) (divisors : list t)
    (ltds : list (option TateAlgebraTerm.t)) (integral : bool)
    (f : t) (q : list t) (r : t) : result (list t * t) :=
  if is_zero f None then Ok (q, r)
  else
    match fuel with
    | O => NoFuel
    | S fuel' =>
        match leading_term f with
        | None => Raise (AttributeError "None has no is_divisible_by")
        | Some lt =>
            found ← first_divisor lt integral 0 ltds;
            match found with
            | Some (i, ltd) =>
                factor ← TateAlgebraTerm.__floordiv__ lt ltd;
                factor' ← of_term parent factor;
                match divisors !! i, q !! i with
                | Some d, Some qi =>
                    let f := _sub_ f (_mul_ factor' d) in
                    let q := <[ i := _add_ qi factor' ]> q in
                    quo_rem_loop fuel' parent divisors ltds integral f q r
                | _, _ => Raise (ValueError "list index out of range")
                end
            | None =>
                lt' ← of_term parent lt;
                let f := _sub_ f lt' in
                let r := _add_ r lt' in
                quo_rem_loop fuel' parent divisors ltds integral f q r
            end
        end
    end.

(** The argument [divisors]: a list (or tuple) of series, or one series. *)
Inductive divisors_arg : Type :=
  | Several (ds : list t)
  | Single (d : t).

Definition as_list (divisors : divisors_arg) : list t :=
  match divisors with
  | Several ds => ds
  | Single d => [d]
  end.

Definition quo_rem (fuel : nat) (self : t) (divisors : divisors_arg)
    (integral : bool) : result (list t * t) :=
  let parent := _parent self in
  let divisors := as_list divisors in
  let ltds := map leading_term divisors in
  let cap := cap_prec parent in
  f ← add_bigoh self cap;
  let q := map (λ d, make parent ∅ (xsub cap (valuation d)) true) divisors in
  let r := make parent ∅ cap true in
  quo_rem_loop fuel parent divisors ltds integral f q r.

Definition __mod__ (fuel : nat) (self : t) (divisors : divisors_arg) : result t :=
  let divisors := Several (as_list divisors) in
  '(_, r) ← quo_rem fuel self divisors false;
  Ok r.

(** An ideal, as far as [reduce] reads it. *)
Record ideal : Type := {
  gens : list t;
  groebner_basis : list t
}.

Definition reduce (fuel : nat) (self : t) (I : ideal) : result (list t * t) :=
  let g := groebner_basis I in
  quo_rem fuel self (Several g) false.

(** What [__floordiv__] returns: the quotient by one series, or the list of
    quotients. *)
Inductive quotients : Type :=
  | Quotient (q : t)
  | Quotients (qs : list t).

(** The list case runs [quo_rem] a second time. *)
Definition __floordiv__ (fuel : nat) (self : t) (divisors : divisors_arg)
  : result quotients :=
  '(q, _) ← quo_rem fuel self divisors false;
  match divisors with
  | Single _ =>
      match q !! 0%nat with
      | Some q0 => Ok (Quotient q0)
      | None => Raise (ValueError "list index out of range")
      end
  | Several _ =>
      '(q, _) ← quo_rem fuel self divisors false;
      Ok (Quotients q)
  end.

(** [(t//st)*self - (t//ot)*other]: the first quotient and product are
    evaluated before the second ones. *)
Definition Spoly (self other : t) : result t :=
  if is_zero self None || is_zero other None
  then Raise (ValueError "Cannot compute the S-polynomial of zero")
  else
    match leading_term self, leading_term other with
    | Some st, Some ot =>
        t ← TateAlgebraTerm.lcm st ot;
        a ← TateAlgebraTerm.__floordiv__ t st;
        a' ← of_term (_parent self) a;
        b ← TateAlgebraTerm.__floordiv__ t ot;
        b' ← of_term (_parent other) b;
        Ok (_sub_ (_mul_ a' self) (_mul_ b' other))
    | _, _ => Raise (AttributeError "None has no lcm")
    end.
End Element.
End TateAlgebraElement.

(** ** The 2-adic numbers of the examples

    Modelled from the spec: the base ring is a collaborator that supplies
    addition, multiplication, the valuation, a uniformizer and its powers,
    [val_unit] and the truncation [add_bigoh].  Here the uniformizer is 2 and
    the coefficients are exact rationals kept in lowest terms: the valuation
    is the 2-adic one ([Infinity] at zero), [add_bigoh(n)] is zero on what
    has valuation at least [n] and keeps every other coefficient, and the
    shift of the base ring drops the digits below the new unit digit. *)
Module Padic2.
Local Open Scope Q_scope.

Fixpoint val2_pos (p : positive) : Z :=
  match p with
  | xO p' => (1 + val2_pos p')%Z
  | _ => 0%Z
  end.

Definition val2 (c : Q) : ext Z :=
  match Qnum c with
  | Z0 => PInf
  | Zpos p | Zneg p => Fin (val2_pos p - val2_pos (Qden c))%Z
  end.

Definition pow2 (n : Z) : Q := Qred (Qpower (2 # 1) n).

Definition upow (v : ext Z) : Q :=
  match v with
  | Fin n => pow2 n
  | _ => 0
  end.

Definition unit_part (c : Q) : Z * Q :=
  match val2 c with
  | Fin v => (v, Qred (c / pow2 v))
  | _ => (0%Z, c)
  end.

Definition bigoh (c : Q) (n : ext Qc) : Q :=
  if vltb (xinj (val2 c)) n then c else 0.

(** The inverse of an odd integer modulo [2^n], by Hensel's doubling. *)
Definition inv_mod2 (b : Z) (n : nat) : Z :=
  Nat.iter n (λ x, (x * (2 - b * x)) mod 2 ^ Z.of_nat n)%Z 1%Z.

(** The digits of a 2-adic integer below [2^n]. *)
Definition low_digits (c : Q) (n : nat) : Z :=
  ((Qnum c * inv_mod2 (Zpos (Qden c)) n) mod 2 ^ Z.of_nat n)%Z.

Definition rshift (c : Q) (n : Z) : Q :=
  match n with
  | Zpos _ => Qred ((c - inject_Z (low_digits c (Z.to_nat n))) / pow2 n)
  | _ => Qred (c * pow2 (- n))
  end.

Definition ring (field : bool) : BaseRing := {|
  K := Q;
  Kadd := λ c d, Qred (c + d);
  Ksub := λ c d, Qred (c - d);
  Kmul := λ c d, Qred (c * d);
  Kdiv := λ c d, Qred (c / d);
  Kopp := λ c, Qred (- c);
  Kis_zero := λ c, Qeq_bool c 0;
  Kof_Z := inject_Z;
  is_field := field;
  Kvaluation := val2;
  uniformizer_pow := upow;
  val_unit := unit_part;
  Kinverse_of_unit := λ c, Qred (/ c);
  Kadd_bigoh := bigoh;
  Klshift := λ c n, Qred (c * pow2 n);
  Krshift_base := rshift
|}.

(** [Zp(2, 10)] and [Qp(2, 10)]. *)
Definition Z2 : BaseRing := ring false.
Definition Q2 : BaseRing := ring true.

(** Sage's sort key of the order [degrevlex], as one tuple. *)
Definition degrevlex (e : list nat) : list Z :=
  Z.of_nat (foldr Nat.add 0%nat e) :: map (λ n, (- Z.of_nat n)%Z) (rev e).

(** The algebra in [x] over a ring of precision 10, with one log-radius. *)
Definition algebra (id : nat) (r : Qc) : TateAlgebra := {|
  uid := id;
  variable_names := ["x"%string];
  log_radii := [r];
  precision_cap := 10;
  sortkey := degrevlex;
  absolute_e := 1
|}.

(** The unit disc, and the disc of radius [2^-1] of the doctest of
    [restriction]. *)
Definition A0 : TateAlgebra := algebra 0 0%Qc.
Definition A1 : TateAlgebra := algebra 1 (Qc_of_Z (-1)).
End Padic2.

(** ** Statements of the specification, in its words *)
Section Stated.
Context `{BaseRing}.

Definition xfloor (v : ext Qc) : ext Z :=
match v with
| NInf => NInf
| Fin q => Fin (Qfloor q)
| PInf => PInf
end.

(** The gcd and the lcm of two terms as the specification words them: the
    exponents are the component-wise min (max), the coefficient is the
    uniformizer raised to the min (max) of the valuations of the two
    terms. *)
Definition gcd_of_term_valuations (t1 t2 : TateAlgebraTerm.t) : TateAlgebraTerm.t :=
{| TateAlgebraTerm._parent := TateAlgebraTerm._parent t1;
   TateAlgebraTerm._coeff :=
     uniformizer_pow (xfloor (vmin (TateAlgebraTerm.valuation t1)
                                   (TateAlgebraTerm.valuation t2)));
   TateAlgebraTerm._exponent :=
     emin (TateAlgebraTerm._exponent t1) (TateAlgebraTerm._exponent t2) |}.

Definition lcm_of_term_valuations (t1 t2 : TateAlgebraTerm.t) : TateAlgebraTerm.t :=
{| TateAlgebraTerm._parent := TateAlgebraTerm._parent t1;
   TateAlgebraTerm._coeff :=
     uniformizer_pow (xfloor (vmax (TateAlgebraTerm.valuation t1)
                                   (TateAlgebraTerm.valuation t2)));
   TateAlgebraTerm._exponent :=
     emax (TateAlgebraTerm._exponent t1) (TateAlgebraTerm._exponent t2) |}.
End Stated.

Section StatedRestriction.
Context `{BaseRing}.

(** The algebra of the series or term that [__init__] is given. *)
Definition source_algebra (x : TateAlgebraElement.init_arg) : option TateAlgebra :=
match x with
| TateAlgebraElement.OfElement xc => Some (TateAlgebraElement._parent xc)
| TateAlgebraElement.OfTerm t => Some (TateAlgebraTerm._parent t)
| TateAlgebraElement.OfRaw _ => None
end.

(** The condition for a legal restriction as the specification words it:
    each log-radius of the target is at least that of the source, scaled by
    the ratio of the ramification indices. *)
Definition stated_legal (parent xparent : TateAlgebra) : Prop :=
∀ i, (i < ngens parent)%nat →
  (nth i (log_radii xparent) 0 * TateAlgebraElement.e_ratio parent xparent
   ≤ nth i (log_radii parent) 0)%Qc.
End StatedRestriction.

Section StatedUnit.
Context `{BaseRing}.

(** "Not a unit" as the specification words it: the series is zero, or the
    exponent of its leading term is not zero, or the base ring is not a field
    and the leading term has positive valuation. *)
Definition not_a_unit (f : TateAlgebraElement.t) : Prop :=
TateAlgebraElement.is_zero f None = true
∨ ∃ t, TateAlgebraElement.leading_term f = Some t
       ∧ ((∃ i, nth i (TateAlgebraTerm.exponent t) 0%nat ≠ 0%nat)
          ∨ (is_field = false ∧ vcmp (Fin 0%Qc) (TateAlgebraTerm.valuation t) = Lt)).

(** The invariant of the mapping of a series: every exponent tuple has one
    component for each variable of the algebra. *)
Definition exponents_fit (f : TateAlgebraElement.t) : Prop :=
∀ e, is_Some (TateAlgebraElement._poly f !! e) →
     length e = ngens (TateAlgebraElement._parent f).
End StatedUnit.

(** ** Terms and series of the examples *)
Module Examples.
Import Padic2.
Local Open Scope Q_scope.

(** The term [c * x^n] of an algebra in one variable. *)
Definition term (R : BaseRing) (A : TateAlgebra) (c : @K R) (n : nat)
  : @TateAlgebraTerm.t R :=
{| TateAlgebraTerm._parent := A;
   TateAlgebraTerm._coeff := c;
   TateAlgebraTerm._exponent := [n] |}.

(** The series with the given coefficients of the powers of [x], at
    precision [Infinity]. *)
Definition series (R : BaseRing) (A : TateAlgebra) (l : list (nat * @K R))
  : @TateAlgebraElement.t R :=
TateAlgebraElement.make A
  (foldr (λ '(n, c) p, poly_add p (poly_monomial c [n])) ∅ l) PInf true.

(** What a call shows of the series it returns: the entries of their
    mappings. *)
Definition entries {R : BaseRing} (r : result (@TateAlgebraElement.t R))
  : option (list (list nat * @K R)) :=
  match r with
  | Ok f => Some (map_to_list (TateAlgebraElement._poly f))
  | _ => None
  end.

Definition pair_entries {R : BaseRing}
    (r : result (list (@TateAlgebraElement.t R) * @TateAlgebraElement.t R))
  : option (list (list (list nat * @K R)) * list (list nat * @K R)) :=
  match r with
  | Ok (q, r) => Some (map (λ f, map_to_list (TateAlgebraElement._poly f)) q,
                       map_to_list (TateAlgebraElement._poly r))
  | _ => None
  end.

(** Over [Zp(2, 10)], on the unit disc: [0], [x], [x^2], [1 + 2*x] and the
    terms [x] and [3*x]. *)
Definition zero : @TateAlgebraElement.t Z2 := series Z2 A0 [].
Definition x : @TateAlgebraElement.t Z2 := series Z2 A0 [(1%nat, 1)].
Definition x_squared : @TateAlgebraElement.t Z2 := series Z2 A0 [(2%nat, 1)].
Definition one_plus_2x : @TateAlgebraElement.t Z2 :=
  series Z2 A0 [(0%nat, 1); (1%nat, 2)].
Definition term_x : @TateAlgebraTerm.t Z2 := term Z2 A0 1 1.
Definition term_3x : @TateAlgebraTerm.t Z2 := term Z2 A0 3 1.
Definition term_2x : @TateAlgebraTerm.t Z2 := term Z2 A0 2 1.

(** The ideal generated by [x], with its Groebner basis [[x]]. *)
Definition ideal_x : @TateAlgebraElement.ideal Z2 :=
  {| TateAlgebraElement.gens := [x]; TateAlgebraElement.groebner_basis := [x] |}.

(** Over [Qp(2, 10)], on the unit disc: the constants [2] and [1]. *)
Definition two : @TateAlgebraElement.t Q2 := series Q2 A0 [(0%nat, 2)].
Definition one : @TateAlgebraElement.t Q2 := series Q2 A0 [(0%nat, 1)].

(** Over [Zp(2, 10)], on the disc of log-radius [-1]: the series [1],
    [1 - x] and [1 + (1/2)*x^2], the terms [x] and [x^2], and [x^k] at
    precision 10 and at precision [Infinity]. *)
Definition one_small : @TateAlgebraElement.t Z2 := series Z2 A1 [(0%nat, 1)].
Definition one_minus_x : @TateAlgebraElement.t Z2 :=
  series Z2 A1 [(0%nat, 1); (1%nat, -1)].
Definition one_plus_half_x_squared : @TateAlgebraElement.t Z2 :=
  series Z2 A1 [(0%nat, 1); (2%nat, 1 # 2)].
Definition small_x : @TateAlgebraTerm.t Z2 := term Z2 A1 1 1.
Definition small_x_squared : @TateAlgebraTerm.t Z2 := term Z2 A1 1 2.
Definition x_pow (k : nat) : @TateAlgebraElement.t Z2 :=
  {| TateAlgebraElement._parent := A1;
     TateAlgebraElement._poly := {[ [k] := 1 ]};
     TateAlgebraElement._prec := cap_prec A1 |}.
Definition x_pow_exact (k : nat) : @TateAlgebraElement.t Z2 :=
  {| TateAlgebraElement._parent := A1;
     TateAlgebraElement._poly := {[ [k] := 1 ]};
     TateAlgebraElement._prec := PInf |}.
End Examples.

(** ** Invariants of terms, series and the division loop *)
Section Invariants.
Context `{BaseRing}.

(** The entry of the mapping that a term was built from. *)
Definition entry (t : TateAlgebraTerm.t) : list nat * K :=
  (TateAlgebraTerm._exponent t, TateAlgebraTerm._coeff t).


(** What every round of the loop of [quo_rem] keeps of the quotients [q] and
    of the remainder [r]. *)
Definition loop_keeps (A : TateAlgebra) (divisors q : list TateAlgebraElement.t)
    (r : TateAlgebraElement.t) : Prop :=
  length q = length divisors
  ∧ (∀ i d qi, divisors !! i = Some d → q !! i = Some qi →
       TateAlgebraElement._parent qi = A
       ∧ TateAlgebraElement._prec qi
         = xsub (cap_prec A) (TateAlgebraElement.valuation d))
  ∧ TateAlgebraElement._parent r = A
  ∧ TateAlgebraElement._prec r = cap_prec A.
End Invariants.

(** ** Terms and series over the field [Qp(2, 10)] *)
Module FieldExamples.
Import Padic2 Examples.
Local Open Scope Q_scope.

(** On the unit disc: the terms [2*x] and [x^2], the series [2 + x], [x^2]
    and [2 + 6*x]. *)
Definition term_2x : @TateAlgebraTerm.t Q2 := term Q2 A0 2 1.
Definition term_x_squared : @TateAlgebraTerm.t Q2 := term Q2 A0 1 2.
Definition x_squared : @TateAlgebraElement.t Q2 := series Q2 A0 [(2%nat, 1)].
Definition two_plus_6x : @TateAlgebraElement.t Q2 :=
  series Q2 A0 [(0%nat, 2); (1%nat, 6)].
End FieldExamples.

(** * Properties *)

(** Closed computations are checked by the virtual machine. *)
Ltac vm_refl :=
  lazymatch goal with
  | |- _ = ?r => vm_cast_no_check (eq_refl r)
  end.

Lemma returns_Ok {A : Type} (r : result A) : returns r = true → ∃ a, r = Ok a.
Proof. destruct r; [eauto|done|done]. Qed.

(** ** Extended numbers and constructors *)

Lemma vmin_PInf_l (x : ext Qc) : vmin PInf x = x.
Proof. by destruct x. Qed.

Lemma vmin_PInf_r (x : ext Qc) : vmin x PInf = x.
Proof. by destruct x. Qed.

Lemma parent_is_refl (A : TateAlgebra) : parent_is A A = true.
Proof. apply Nat.eqb_refl. Qed.

Section Constructors.
Context `{BaseRing}.

(** [parent(p, prec)] on a polynomial is [make]. *)
Lemma init_raw parent p prec reduce :
  TateAlgebraElement.__init__ parent (TateAlgebraElement.OfRaw p) (Some prec) reduce
  = Ok (TateAlgebraElement.make parent p prec reduce).
Proof. reflexivity. Qed.

Lemma make_parent parent p prec reduce :
  TateAlgebraElement._parent (TateAlgebraElement.make parent p prec reduce) = parent.
Proof. reflexivity. Qed.

Lemma make_prec parent p prec reduce :
  TateAlgebraElement._prec (TateAlgebraElement.make parent p prec reduce) = prec.
Proof. apply vmin_PInf_l. Qed.

(** [add_bigoh] takes the branch [xparent is parent] and returns. *)
Lemma add_bigoh_ok (f : TateAlgebraElement.t) n :
  TateAlgebraElement.add_bigoh f n
  = Ok {| TateAlgebraElement._parent := TateAlgebraElement._parent f;
          TateAlgebraElement._poly :=
            poly_map (λ c, Kadd_bigoh c (vmin (TateAlgebraElement._prec f) n))
                     (TateAlgebraElement._poly f);
          TateAlgebraElement._prec := vmin (TateAlgebraElement._prec f) n |}.
Proof.
  unfold TateAlgebraElement.add_bigoh, TateAlgebraElement.__init__,
    TateAlgebraElement.init_source.
  rewrite parent_is_refl. reflexivity.
Qed.
End Constructors.

(** ** Precision of a product, shifts, the zero series *)
Section Arithmetic.
Context `{BaseRing}.

(** C1: the absolute precision of [a * b] is
    [min(prec(a) + valuation(b), prec(b) + valuation(a))], with the
    valuation of a series (the leading term's, capped by the precision cap
    of the algebra). *)
Theorem mul_precision_absolute (a b : TateAlgebraElement.t) :
  TateAlgebraElement.precision_absolute (TateAlgebraElement._mul_ a b)
  = vmin (xadd (TateAlgebraElement.precision_absolute a) (TateAlgebraElement.valuation b))
         (xadd (TateAlgebraElement.precision_absolute b) (TateAlgebraElement.valuation a)).
Proof.
  unfold TateAlgebraElement._mul_, TateAlgebraElement.precision_absolute.
  apply make_prec.
Qed.

(** C9: [f >> n] is [f << (-n)], for every integer [n]. *)
Theorem rshift_is_lshift_neg (f : TateAlgebraElement.t) (n : Z) :
  TateAlgebraElement.__rshift__ f n = TateAlgebraElement.__lshift__ f (- n).
Proof. reflexivity. Qed.

(** C10: on the zero series [leading_term()] is [None], and
    [leading_coefficient()] does not return the zero of the base ring: the
    call [self.base_ring(0)] it makes there raises a [TypeError]. *)
Theorem leading_coefficient_zero_raises (f : TateAlgebraElement.t) :
  TateAlgebraElement.is_zero f None = true →
  (∃ msg, TateAlgebraElement.leading_coefficient f = Raise (TypeError msg))
  ∧ TateAlgebraElement.leading_term f = None.
Proof.
  intros Hz. unfold TateAlgebraElement.leading_coefficient,
    TateAlgebraElement.leading_term, TateAlgebraElement.is_zero0.
  rewrite Hz. simpl in Hz. rewrite Hz. split; [eauto|reflexivity].
Qed.
End Arithmetic.

(** ** Terms: gcd and lcm *)

Lemma nth_zip_with (f : nat → nat → nat) (l k : list nat) (i : nat) :
  (i < length l)%nat → (i < length k)%nat →
  nth i (zip_with f l k) 0%nat = f (nth i l 0%nat) (nth i k 0%nat).
Proof.
  revert k i. induction l as [|x l IH]; intros [|y k] [|i] Hl Hk; simpl in *;
    try lia; try reflexivity.
  apply IH; lia.
Qed.

Lemma xmin_Fin (a b : Z) : xmin Z.compare (Fin a) (Fin b) = Fin (Z.min a b).
Proof.
  unfold xmin, xltb, xcmp, Z.min.
  rewrite (Z.compare_antisym a b).
  destruct (a ?= b); reflexivity.
Qed.

Lemma xmax_Fin (a b : Z) : xmax Z.compare (Fin a) (Fin b) = Fin (Z.max a b).
Proof.
  unfold xmax, xltb, xcmp, Z.max.
  destruct (a ?= b); reflexivity.
Qed.

Section TermGcdLcm.
Context `{BaseRing}.

(** C8, as the code has it: for two terms with [ngens] exponents each,
    [gcd] ([lcm]) returns the term whose exponents are the component-wise min
    (max) and whose coefficient is the uniformizer raised to the min (max) of
    the valuations of the two coefficients; the unit parts play no role. *)
Theorem gcd_lcm_coefficient_valuations (t1 t2 : TateAlgebraTerm.t) :
  let n := ngens (TateAlgebraTerm._parent t1) in
  let e1 := TateAlgebraTerm._exponent t1 in
  let e2 := TateAlgebraTerm._exponent t2 in
  let v1 := Kvaluation (TateAlgebraTerm._coeff t1) in
  let v2 := Kvaluation (TateAlgebraTerm._coeff t2) in
  length e1 = n → length e2 = n →
  ∃ g l,
    TateAlgebraTerm.gcd t1 t2 = Ok g ∧ TateAlgebraTerm.lcm t1 t2 = Ok l
    ∧ TateAlgebraTerm._coeff g = uniformizer_pow (xmin Z.compare v1 v2)
    ∧ TateAlgebraTerm._coeff l = uniformizer_pow (xmax Z.compare v1 v2)
    ∧ length (TateAlgebraTerm._exponent g) = n
    ∧ length (TateAlgebraTerm._exponent l) = n
    ∧ ∀ i, (i < n)%nat →
        nth i (TateAlgebraTerm._exponent g) 0%nat = Nat.min (nth i e1 0%nat) (nth i e2 0%nat)
        ∧ nth i (TateAlgebraTerm._exponent l) 0%nat = Nat.max (nth i e1 0%nat) (nth i e2 0%nat).
Proof.
  intros n e1 e2 v1 v2 H1 H2.
  assert (Hmin : length (emin e1 e2) = n)
    by (unfold emin; rewrite length_zip_with; lia).
  assert (Hmax : length (emax e1 e2) = n)
    by (unfold emax; rewrite length_zip_with; lia).
  unfold TateAlgebraTerm.gcd, TateAlgebraTerm.lcm, TateAlgebraTerm.__init__,
    TateAlgebraTerm.exponent.
  fold e1 e2 n. rewrite !bool_decide_eq_false_2 by (rewrite ?Hmin, ?Hmax; auto).
  eexists _, _. repeat split; simpl; try done.
  - unfold emin. apply nth_zip_with; lia.
  - unfold emax. apply nth_zip_with; lia.
Qed.
End TermGcdLcm.

(** ** Three-way comparisons

    [cmp] results that behave as the comparison of a total preorder: the
    opposite on swapped arguments, transitive for each answer, and equal
    arguments compare alike against a third. *)
Record three_way {A : Type} (cmp : A → A → comparison) : Prop := {
  tw_opp : ∀ x y, cmp y x = CompOpp (cmp x y);
  tw_trans : ∀ c x y z, cmp x y = c → cmp y z = c → cmp x z = c;
  tw_eq_l : ∀ x y z, cmp x y = Eq → cmp x z = cmp y z
}.

Lemma tw_eq_r {A} (cmp : A → A → comparison) :
  three_way cmp → ∀ x y z, cmp y z = Eq → cmp x y = cmp x z.
Proof.
  intros W x y z E.
  rewrite (tw_opp cmp W y x), (tw_opp cmp W z x). f_equal.
  apply (tw_eq_l cmp W y z x E).
Qed.

Lemma tw_le_trans {A} (cmp : A → A → comparison) :
  three_way cmp → ∀ x y z, cmp x y ≠ Gt → cmp y z ≠ Gt → cmp x z ≠ Gt.
Proof.
  intros W x y z Hxy Hyz.
  destruct (cmp x y) eqn:E1; [| |done].
  - by rewrite (tw_eq_l cmp W x y z E1).
  - destruct (cmp y z) eqn:E2; [| |done].
    + by rewrite <- (tw_eq_r cmp W x y z E2), E1.
    + by rewrite (tw_trans cmp W Lt x y z E1 E2).
Qed.

(** A comparison that answers [Eq] on equal arguments only. *)
Lemma three_way_of_eq {A} (cmp : A → A → comparison) :
  (∀ x y, cmp y x = CompOpp (cmp x y)) →
  (∀ c x y z, cmp x y = c → cmp y z = c → cmp x z = c) →
  (∀ x y, cmp x y = Eq → x = y) →
  three_way cmp.
Proof.
  intros Ho Ht He. split; [done|done|].
  intros x y z E. by rewrite (He x y E).
Qed.

Lemma three_way_Z : three_way Z.compare.
Proof.
  apply three_way_of_eq.
  - intros x y. apply Z.compare_antisym.
  - intros [] x y z; rewrite ?Z.compare_eq_iff, ?Z.compare_lt_iff, ?Z.compare_gt_iff; lia.
  - intros x y. apply Z.compare_eq.
Qed.

Lemma three_way_Qc : three_way Qccompare.
Proof.
  apply three_way_of_eq.
  - intros x y. unfold Qccompare. symmetry. apply Qcompare_antisym.
  - intros [] x y z.
    + rewrite <- !Qceq_alt. congruence.
    + rewrite <- !Qclt_alt. apply Qclt_trans.
    + rewrite <- !Qcgt_alt. intros ??. by apply Qclt_trans with y.
  - intros x y. by rewrite <- Qceq_alt.
Qed.

Lemma xcmp_eq {A} (cmpA : A → A → comparison) :
  (∀ a b, cmpA a b = Eq → a = b) → ∀ x y, xcmp cmpA x y = Eq → x = y.
Proof.
  intros He [|a|] [|b|]; simpl; try done. intros E. by rewrite (He a b E).
Qed.

Lemma three_way_ext {A} (cmpA : A → A → comparison) :
  three_way cmpA → three_way (xcmp cmpA).
Proof.
  intros [Ho Ht He]. split.
  - intros [|a|] [|b|]; simpl; auto.
  - intros c [|a|] [|b|] [|d|]; simpl; try congruence. apply Ht.
  - intros [|a|] [|b|] [|d|]; simpl; try congruence. apply He.
Qed.

Lemma tuple_cmp_eq (a b : list Z) : tuple_cmp a b = Eq → a = b.
Proof.
  revert b. induction a as [|x a IH]; intros [|y b]; simpl; try done.
  destruct (x ?= y) eqn:E; try done.
  intros Hab. apply Z.compare_eq in E. subst. f_equal. by apply IH.
Qed.

Lemma tuple_cmp_refl (a : list Z) : tuple_cmp a a = Eq.
Proof. induction a as [|x a IH]; simpl; [done|]. by rewrite Z.compare_refl. Qed.

Lemma three_way_tuple : three_way tuple_cmp.
Proof.
  apply three_way_of_eq.
  - intros x. induction x as [|a x IH]; intros [|b y]; simpl; try done.
    rewrite (Z.compare_antisym a b).
    destruct (a ?= b); simpl; auto.
  - intros c x. induction x as [|a x IH]; intros [|b y] [|d z]; simpl; try congruence.
    destruct (a ?= b) eqn:E1.
    + apply Z.compare_eq in E1. subst b.
      destruct (a ?= d); try congruence. apply IH.
    + destruct (b ?= d) eqn:E2.
      * apply Z.compare_eq in E2. subst d. rewrite E1. congruence.
      * rewrite (tw_trans _ three_way_Z Lt a b d E1 E2). congruence.
      * congruence.
    + destruct (b ?= d) eqn:E2.
      * apply Z.compare_eq in E2. subst d. rewrite E1. congruence.
      * congruence.
      * rewrite (tw_trans _ three_way_Z Gt a b d E1 E2). congruence.
  - apply tuple_cmp_eq.
Qed.

(** The comparison by a first key, then by a second one. *)
Lemma three_way_lex {A B C : Type} (c1 : B → B → comparison)
    (c2 : C → C → comparison) (k1 : A → B) (k2 : A → C) :
  three_way c1 → three_way c2 →
  three_way (λ x y, match c1 (k1 x) (k1 y) with
                    | Eq => c2 (k2 x) (k2 y)
                    | c => c
                    end).
Proof.
  intros W1 W2. split.
  - intros x y. rewrite (tw_opp c1 W1 (k1 x) (k1 y)), (tw_opp c2 W2 (k2 x) (k2 y)).
    by destruct (c1 (k1 x) (k1 y)).
  - intros c x y z.
    destruct (c1 (k1 x) (k1 y)) eqn:E1.
    + rewrite (tw_eq_l c1 W1 _ _ (k1 z) E1).
      destruct (c1 (k1 y) (k1 z)); try congruence. apply (tw_trans c2 W2).
    + destruct (c1 (k1 y) (k1 z)) eqn:E2.
      * rewrite <- (tw_eq_r c1 W1 _ _ _ E2), E1. congruence.
      * rewrite (tw_trans c1 W1 Lt _ _ _ E1 E2). congruence.
      * congruence.
    + destruct (c1 (k1 y) (k1 z)) eqn:E2.
      * rewrite <- (tw_eq_r c1 W1 _ _ _ E2), E1. congruence.
      * congruence.
      * rewrite (tw_trans c1 W1 Gt _ _ _ E1 E2). congruence.
  - intros x y z.
    destruct (c1 (k1 x) (k1 y)) eqn:E1; try done.
    intros E2. rewrite (tw_eq_l c1 W1 _ _ (k1 z) E1).
    by rewrite (tw_eq_l c2 W2 _ _ (k2 z) E2).
Qed.

(** ** The term order *)

Lemma Qc_of_Z_inj (a b : Z) : Qc_of_Z a = Qc_of_Z b → a = b.
Proof.
  intros E. apply (f_equal this) in E. unfold Qc_of_Z in E. simpl in E.
  apply Qred_eq_iff in E. unfold Qeq in E. simpl in E. lia.
Qed.

Lemma Fin_inj {A} (a b : A) : Fin a = Fin b → a = b.
Proof. congruence. Qed.

Lemma xsub_xinj_inj (a b : ext Z) (w : Qc) :
  xsub (xinj a) (Fin w) = xsub (xinj b) (Fin w) → a = b.
Proof.
  destruct a as [|a|], b as [|b|]; cbn [xsub xinj xadd xopp]; try done.
  intros E. apply Fin_inj in E. f_equal. apply Qc_of_Z_inj.
  apply (f_equal (λ q, q + w)%Qc) in E. ring_simplify in E. exact E.
Qed.

Lemma xopp_inj (x y : ext Qc) : xopp x = xopp y → x = y.
Proof.
  destruct x as [|a|], y as [|b|]; cbn [xopp]; try done.
  intros E. apply Fin_inj in E. f_equal.
  apply (f_equal Qcopp) in E. by rewrite !Qcopp_involutive in E.
Qed.

Section TermOrder.
Context `{BaseRing}.

(** The comparison of [_cmp_] among the terms of one algebra [A]. *)
Lemma cmp_same_parent (A : TateAlgebra) (t1 t2 : TateAlgebraTerm.t) :
  TateAlgebraTerm._parent t1 = A →
  TateAlgebraTerm._cmp_ t1 t2
  = match vcmp (xopp (TateAlgebraTerm.valuation t1)) (xopp (TateAlgebraTerm.valuation t2)) with
    | Eq => tuple_cmp (sortkey A (TateAlgebraTerm._exponent t1))
                      (sortkey A (TateAlgebraTerm._exponent t2))
    | c => c
    end.
Proof.
  intros <-. unfold TateAlgebraTerm._cmp_, TateAlgebraTerm.exponent. cbv zeta.
  by destruct (vcmp _ _).
Qed.

Lemma three_way_cmp (A : TateAlgebra) :
  three_way (λ t1 t2 : TateAlgebraTerm.t,
    match vcmp (xopp (TateAlgebraTerm.valuation t1)) (xopp (TateAlgebraTerm.valuation t2)) with
    | Eq => tuple_cmp (sortkey A (TateAlgebraTerm._exponent t1))
                      (sortkey A (TateAlgebraTerm._exponent t2))
    | c => c
    end).
Proof.
  apply (three_way_lex vcmp tuple_cmp
           (λ t, xopp (TateAlgebraTerm.valuation t))
           (λ t, sortkey A (TateAlgebraTerm._exponent t))).
  - apply three_way_ext, three_way_Qc.
  - apply three_way_tuple.
Qed.

(** C4, as the code has it: among the terms of one algebra the comparison is
    that of a total preorder.  Swapping the terms gives the opposite answer,
    the answers "smaller" and "not larger" are transitive, and two terms are
    reported equal exactly when they have the same valuation and the same
    sort key: for an injective sort key, exactly when they have the same
    exponent and coefficients of the same valuation.  The coefficients
    themselves need not be equal. *)
Theorem cmp_total_preorder (A : TateAlgebra) (t1 t2 t3 : TateAlgebraTerm.t) :
  TateAlgebraTerm._parent t1 = A →
  TateAlgebraTerm._parent t2 = A →
  TateAlgebraTerm._parent t3 = A →
  TateAlgebraTerm._cmp_ t2 t1 = CompOpp (TateAlgebraTerm._cmp_ t1 t2)
  ∧ (TateAlgebraTerm._cmp_ t1 t2 = Lt → TateAlgebraTerm._cmp_ t2 t3 = Lt →
     TateAlgebraTerm._cmp_ t1 t3 = Lt)
  ∧ (TateAlgebraTerm._cmp_ t1 t2 ≠ Gt → TateAlgebraTerm._cmp_ t2 t3 ≠ Gt →
     TateAlgebraTerm._cmp_ t1 t3 ≠ Gt)
  ∧ (TateAlgebraTerm._cmp_ t1 t2 = Eq ↔
     TateAlgebraTerm.valuation t1 = TateAlgebraTerm.valuation t2
     ∧ sortkey A (TateAlgebraTerm.exponent t1) = sortkey A (TateAlgebraTerm.exponent t2))
  ∧ ((∀ e e', sortkey A e = sortkey A e' → e = e') →
     (TateAlgebraTerm._cmp_ t1 t2 = Eq ↔
      TateAlgebraTerm.exponent t1 = TateAlgebraTerm.exponent t2
      ∧ Kvaluation (TateAlgebraTerm.coefficient t1)
        = Kvaluation (TateAlgebraTerm.coefficient t2))).
Proof.
  intros P1 P2 P3.
  rewrite !(cmp_same_parent A) by assumption.
  pose proof (three_way_cmp A) as W.
  assert (Heq :
    match vcmp (xopp (TateAlgebraTerm.valuation t1)) (xopp (TateAlgebraTerm.valuation t2)) with
    | Eq => tuple_cmp (sortkey A (TateAlgebraTerm._exponent t1))
                      (sortkey A (TateAlgebraTerm._exponent t2))
    | c => c
    end = Eq ↔
    TateAlgebraTerm.valuation t1 = TateAlgebraTerm.valuation t2
    ∧ sortkey A (TateAlgebraTerm.exponent t1) = sortkey A (TateAlgebraTerm.exponent t2)).
  { unfold TateAlgebraTerm.exponent. split.
    - destruct (vcmp _ _) eqn:E; try done. intros E2. split.
      + apply xopp_inj, (xcmp_eq Qccompare); [|exact E].
        intros a b. by rewrite <- Qceq_alt.
      + by apply tuple_cmp_eq.
    - intros [-> ->]. rewrite tuple_cmp_refl.
      destruct (xopp (TateAlgebraTerm.valuation t2)) as [|q|]; simpl; try done.
      by rewrite (proj1 (Qceq_alt q q) eq_refl). }
  split; [apply (tw_opp _ W)|].
  split; [apply (tw_trans _ W Lt)|].
  split; [apply (tw_le_trans _ W)|].
  split; [exact Heq|].
  intros Hinj. rewrite Heq.
  unfold TateAlgebraTerm.exponent, TateAlgebraTerm.coefficient, TateAlgebraTerm.valuation.
  rewrite P1, P2. split.
  - intros [Hv He]. apply Hinj in He. split; [done|].
    rewrite He in Hv. by apply xsub_xinj_inj in Hv.
  - intros [-> ->]. done.
Qed.
End TermOrder.

(** ** Construction from a series or a term of another algebra *)

Lemma bigger_domain_true (parent xparent : TateAlgebra) (r : Qc) :
  TateAlgebraElement.bigger_domain parent xparent r = true ↔
  ∃ i, (i < ngens parent)%nat
       ∧ (nth i (log_radii xparent) 0 * r < nth i (log_radii parent) 0)%Qc.
Proof.
  unfold TateAlgebraElement.bigger_domain. rewrite existsb_exists. split.
  - intros (i & Hi & Hc). exists i. apply in_seq in Hi. split; [lia|].
    apply Qcgt_alt. by destruct (_ ?= _)%Qc.
  - intros (i & Hi & Hc). exists i. split; [apply in_seq; lia|].
    apply Qcgt_alt in Hc. by rewrite Hc.
Qed.

Lemma bigger_domain_false (parent xparent : TateAlgebra) (r : Qc) :
  TateAlgebraElement.bigger_domain parent xparent r = false ↔
  ∀ i, (i < ngens parent)%nat →
       (nth i (log_radii parent) 0 ≤ nth i (log_radii xparent) 0 * r)%Qc.
Proof.
  rewrite <- not_true_iff_false, bigger_domain_true. split.
  - intros Hn i Hi. apply Qcnot_lt_le. intros Hlt. apply Hn. eauto.
  - intros Ha (i & Hi & Hlt). by apply (Qcle_not_lt _ _ (Ha i Hi)).
Qed.

Section Restriction.
Context `{BaseRing}.

(** C5, as the code has it: given a series or a term of another algebra with
    the same variable names, [__init__] raises "Cannot restrict to a bigger
    domain" exactly when some log-radius of the target is greater than that of
    the source scaled by the ratio of the ramification indices, and returns a
    series exactly when every log-radius of the target is at most the scaled
    one of the source. *)
Theorem init_restriction (parent xparent : TateAlgebra)
    (x : TateAlgebraElement.init_arg) (prec : option (ext Qc)) (reduce : bool) :
  source_algebra x = Some xparent →
  parent_is xparent parent = false →
  variable_names xparent = variable_names parent →
  let ratio := TateAlgebraElement.e_ratio parent xparent in
  (TateAlgebraElement.__init__ parent x prec reduce
     = Raise (ValueError "Cannot restrict to a bigger domain")
   ↔ ∃ i, (i < ngens parent)%nat
          ∧ (nth i (log_radii xparent) 0 * ratio < nth i (log_radii parent) 0)%Qc)
  ∧ ((∃ y, TateAlgebraElement.__init__ parent x prec reduce = Ok y)
     ↔ ∀ i, (i < ngens parent)%nat →
            (nth i (log_radii parent) 0 ≤ nth i (log_radii xparent) 0 * ratio)%Qc).
Proof.
  intros Hx Hne Hnames ratio.
  rewrite <- bigger_domain_true, <- bigger_domain_false. fold ratio.
  unfold TateAlgebraElement.__init__, TateAlgebraElement.init_source.
  destruct x as [xc|t|p]; simpl in Hx; [| |done]; injection Hx as Hx;
    rewrite Hx, ?Hne; unfold TateAlgebraElement.names_eq;
    rewrite (bool_decide_eq_true_2 _ Hnames); fold ratio;
    destruct (TateAlgebraElement.bigger_domain parent xparent ratio); simpl;
    (split; split; try done; try (intros [y Hy]; done); eauto).
Qed.
End Restriction.

(** ** Units and their inverses *)

Lemma foldl_max_zero (l : list nat) (x : nat) :
  foldl Nat.max x l = 0%nat ↔ x = 0%nat ∧ ∀ i, nth i l 0%nat = 0%nat.
Proof.
  revert x. induction l as [|a l IH]; intros x; simpl.
  - split; [|tauto]. intros ->. split; [done|]. by intros [|i].
  - rewrite IH. split.
    + intros [Hm Hl]. split; [lia|]. intros [|i]; [lia|apply Hl].
    + intros [-> Hl]. split; [apply (Hl 0%nat)|]. intros i. apply (Hl (S i)).
Qed.

Lemma vltb_Lt (x y : ext Qc) : vltb x y = true ↔ vcmp x y = Lt.
Proof. unfold xltb. by destruct (vcmp x y). Qed.

Section Units.
Context `{BaseRing}.

(** The leading term of a series that is not zero is one of its entries. *)
Lemma leading_term_nonzero (f : TateAlgebraElement.t) :
  TateAlgebraElement.is_zero f None = false →
  ∃ t, TateAlgebraElement.leading_term f = Some t
       ∧ TateAlgebraTerm._parent t = TateAlgebraElement._parent f
       ∧ TateAlgebraElement._poly f !! TateAlgebraTerm._exponent t
         = Some (TateAlgebraTerm._coeff t).
Proof.
  intros Hz. simpl in Hz.
  unfold TateAlgebraElement.leading_term, TateAlgebraElement.terms,
    TateAlgebraElement.is_zero0. rewrite Hz.
  set (mk := λ '(e, c), {| TateAlgebraTerm._parent := TateAlgebraElement._parent f;
                          TateAlgebraTerm._coeff := c;
                          TateAlgebraTerm._exponent := e |}).
  set (l := map mk (map_to_list (TateAlgebraElement.dict f))).
  pose proof (merge_sort_Permutation TateAlgebraElement.term_ge l) as Hp.
  destruct (merge_sort TateAlgebraElement.term_ge l) as [|t ts] eqn:E.
  - apply Permutation_nil in Hp. unfold l in Hp.
    apply map_eq_nil, map_to_list_empty_iff in Hp.
    unfold poly_is_zero in Hz. apply bool_decide_eq_false in Hz. done.
  - exists t. split; [done|].
    assert (Hin : In t l) by (apply (Permutation_in _ Hp); by left).
    apply in_map_iff in Hin as ([e c] & <- & Hin).
    apply list_elem_of_In, elem_of_map_to_list in Hin. done.
Qed.

Lemma newton_returns (fuel : nat) (cap prec : Z) (self inv : TateAlgebraElement.t) :
  0 < prec → cap ≤ prec * 2 ^ Z.of_nat fuel →
  ∃ r, TateAlgebraElement.newton fuel cap prec self inv = Ok r.
Proof.
  revert prec inv. induction fuel as [|fuel IH]; intros prec inv Hp Hc; simpl.
  - destruct (prec <? cap) eqn:E; [|eauto]. apply Z.ltb_lt in E. simpl in Hc. lia.
  - destruct (prec <? cap) eqn:E; [|eauto]. apply IH; [lia|].
    rewrite Nat2Z.inj_succ, Z.pow_succ_r in Hc by lia. lia.
Qed.

Lemma cap_rounds_suffice (cap : Z) : cap ≤ 1 * 2 ^ Z.of_nat (Z.to_nat cap).
Proof.
  destruct (Z.le_gt_cases cap 0) as [Hc|Hc].
  - pose proof (Z.pow_nonneg 2 (Z.of_nat (Z.to_nat cap))). lia.
  - rewrite Z2Nat.id by lia. pose proof (Z.pow_gt_lin_r 2 cap). lia.
Qed.

(** Under the invariant of the mapping, [is_unit] returns, and it returns
    [False] exactly on what the specification calls not a unit. *)
Lemma is_unit_returns (f : TateAlgebraElement.t) :
  (0 < ngens (TateAlgebraElement._parent f))%nat → exponents_fit f →
  ∃ b, TateAlgebraElement.is_unit f = Ok b ∧ (b = false ↔ not_a_unit f).
Proof.
  intros Hn Hfit. unfold TateAlgebraElement.is_unit, not_a_unit.
  destruct (TateAlgebraElement.is_zero f None) eqn:Hz.
  { exists false. split; [done|]. split; auto. }
  destruct (leading_term_nonzero f Hz) as (t & Hlt & Hp & Hl).
  rewrite Hlt. unfold TateAlgebraTerm.exponent.
  assert (Hlen : length (TateAlgebraTerm._exponent t)
                 = ngens (TateAlgebraElement._parent f)) by (apply Hfit; eauto).
  destruct (TateAlgebraTerm._exponent t) as [|x e] eqn:He; [simpl in Hlen; lia|].
  simpl. destruct (Nat.eqb (foldl Nat.max x e) 0) eqn:Hm; simpl.
  - apply Nat.eqb_eq, foldl_max_zero in Hm as [-> Hm].
    assert (Hzero : ¬ ∃ i, nth i (0%nat :: e) 0%nat ≠ 0%nat).
    { intros [[|i] Hi]; simpl in Hi; [done|]. by apply Hi. }
    destruct is_field; simpl.
    + exists true. split; [done|]. split; [done|].
      intros [?|(t' & Ht' & [?|[? ?]])]; try done.
      injection Ht' as <-. rewrite He in *. done.
    + destruct (vltb (Fin 0%Qc) (TateAlgebraTerm.valuation t)) eqn:Hv.
      * exists false. split; [done|]. split; [|done]. intros _. right.
        exists t. split; [done|]. right. split; [done|].
        exact (proj1 (vltb_Lt _ _) Hv).
      * exists true. split; [done|]. split; [done|].
        intros [?|(t' & Ht' & [?|[? Hv']])]; try done.
        -- injection Ht' as <-. rewrite He in *. done.
        -- injection Ht' as <-.
           pose proof (proj2 (vltb_Lt (Fin 0%Qc) (TateAlgebraTerm.valuation t)) Hv').
           congruence.
  - exists false. split; [done|]. split; [|done]. intros _. right.
    exists t. split; [done|]. left. unfold TateAlgebraTerm.exponent. rewrite He.
    apply Nat.eqb_neq in Hm.
    destruct (decide (x = 0%nat)) as [->|Hx]; [|by exists 0%nat].
    destruct (decide (Forall (λ n, n = 0%nat) e)) as [Ha|Ha].
    + exfalso. apply Hm, foldl_max_zero. split; [done|].
      intros i. destruct (nth_in_or_default i e 0%nat) as [Hin| ->]; [|done].
      by apply (proj1 (List.Forall_forall _ _) Ha).
    + apply not_Forall_Exists, List.Exists_exists in Ha as (n & Hin & Hne); [|apply _].
      apply (In_nth _ _ 0%nat) in Hin as (i & _ & Hi).
      exists (S i). simpl. by rewrite Hi.
Qed.

(** [_lshift] raises nothing but the error of the conversion to the base
    ring, and nothing at all over a field. *)
Lemma lshift_items_outcomes (parent : TateAlgebra) (n : Z)
    (items : list (list nat * K)) (coeffs : gmap (list nat) K) :
  (∃ r, TateAlgebraElement.lshift_items parent n items coeffs = Ok r)
  ∨ TateAlgebraElement.lshift_items parent n items coeffs
    = Raise (ValueError "negative valuation").
Proof.
  revert coeffs. induction items as [|[e c] items IH]; intros coeffs; simpl; [eauto|].
  unfold TateAlgebraElement.to_base.
  destruct (xltb Z.compare (Kvaluation c) (Fin 0)); simpl; [by right|apply IH].
Qed.

Lemma lshift_outcomes (f : TateAlgebraElement.t) (n : Z) :
  (∃ g, TateAlgebraElement._lshift f n = Ok g)
  ∨ (is_field = false
     ∧ TateAlgebraElement._lshift f n = Raise (ValueError "negative valuation")).
Proof.
  unfold TateAlgebraElement._lshift. destruct is_field; [eauto|].
  destruct (lshift_items_outcomes (TateAlgebraElement._parent f) n
              (map_to_list (TateAlgebraElement.dict f)) ∅) as [[r ->]| ->];
    simpl; eauto.
Qed.

(** What [inverse_of_unit()] does on a series of an algebra with at least one
    variable whose exponent tuples have one component for each variable: it
    raises "This series in not invertible" exactly when the series is not a
    unit; on a unit it returns a series, or, over a base ring that is not a
    field, raises the error of the conversion to the base ring. *)
Lemma inverse_of_unit_outcomes (f : TateAlgebraElement.t) :
  (0 < ngens (TateAlgebraElement._parent f))%nat → exponents_fit f →
  (TateAlgebraElement.inverse_of_unit f
     = Raise (ValueError "This series in not invertible") ↔ not_a_unit f)
  ∧ (¬ not_a_unit f →
     (∃ g, TateAlgebraElement.inverse_of_unit f = Ok g)
     ∨ (is_field = false
        ∧ TateAlgebraElement.inverse_of_unit f
          = Raise (ValueError "negative valuation"))).
Proof.
  intros Hn Hfit.
  destruct (is_unit_returns f Hn Hfit) as (b & Hb & Hspec).
  unfold TateAlgebraElement.inverse_of_unit. rewrite Hb. simpl.
  destruct b; simpl.
  - assert (Hnot : ¬ not_a_unit f) by (intros Hu; by apply Hspec in Hu).
    assert (Hz : TateAlgebraElement.is_zero f None = false).
    { destruct (TateAlgebraElement.is_zero f None) eqn:E; [|done].
      exfalso. apply Hnot. by left. }
    destruct (leading_term_nonzero f Hz) as (t & Hlt & _). rewrite Hlt.
    destruct (val_unit (TateAlgebraTerm.coefficient t)) as [v c].
    rewrite add_bigoh_ok. simpl.
    destruct (newton_returns (Z.to_nat (precision_cap (TateAlgebraElement._parent f)))
                (precision_cap (TateAlgebraElement._parent f)) 1 f
                (TateAlgebraElement.make (TateAlgebraElement._parent f)
                   (poly_const (TateAlgebraElement._parent f) (Kinverse_of_unit c))
                   (cap_prec (TateAlgebraElement._parent f)) true))
      as [r Hr]; [lia|apply cap_rounds_suffice|].
    rewrite Hr. simpl. unfold TateAlgebraElement.__lshift__.
    destruct (lshift_outcomes r v) as [[g Hg]|[Hf Hg]]; rewrite Hg.
    + split; [split; done|]. intros _. left. eauto.
    + split; [split; done|]. intros _. right. done.
  - assert (Hu : not_a_unit f) by (by apply Hspec).
    split; [split; done|]. done.
Qed.
End Units.

(** ** Entries of sums, differences and monomials *)
Section PolyLookup.
Context `{BaseRing}.

Lemma lookup_poly_map (f : K → K) (p : gmap (list nat) K) (e : list nat) :
  poly_map f p !! e = p !! e ≫= (λ c, nz (f c)).
Proof. unfold poly_map. apply lookup_omap. Qed.

Lemma lookup_poly_add (p q : gmap (list nat) K) (e : list nat) :
  poly_add p q !! e = union_with (λ a b, nz (Kadd a b)) (p !! e) (q !! e).
Proof. unfold poly_add. apply lookup_union_with. Qed.

Lemma lookup_poly_sub (p q : gmap (list nat) K) (e : list nat) :
  poly_sub p q !! e
  = match p !! e, q !! e with
    | Some x, Some y => nz (Ksub x y)
    | Some x, None => Some x
    | None, Some y => nz (Kopp y)
    | None, None => None
    end.
Proof. unfold poly_sub. rewrite lookup_merge. by destruct (p !! e), (q !! e). Qed.

Lemma lookup_poly_monomial (c : K) (e' e : list nat) :
  poly_monomial c e' !! e = if decide (e' = e) then nz c else None.
Proof.
  unfold poly_monomial. destruct (nz c).
  - apply lookup_singleton.
  - rewrite lookup_empty. by destruct (decide _).
Qed.
End PolyLookup.

(** ** A division that never returns *)
Section Divergence.
Import Padic2 Examples.
Local Open Scope Q_scope.

Lemma Qc_of_Z_compare (a b : Z) : Qccompare (Qc_of_Z a) (Qc_of_Z b) = Z.compare a b.
Proof.
  unfold Qccompare, Qc_of_Z.
  change ((Qred (inject_Z a) ?= Qred (inject_Z b))%Q = (a ?= b)%Z).
  rewrite <- Qred_compare. unfold Qcompare, inject_Z. simpl.
  by rewrite !Z.mul_1_r.
Qed.

Lemma valuation_x_pow (k : nat) :
  TateAlgebraTerm.valuation (term Z2 A1 1 k) = Fin (Qc_of_Z (Z.of_nat k)).
Proof.
  unfold TateAlgebraTerm.valuation, weighted_degree. simpl.
  f_equal. apply Qc_is_canon. simpl.
  rewrite !Qred_correct. unfold Qeq. simpl. lia.
Qed.

Lemma x_pow_not_zero (k : nat) : TateAlgebraElement.is_zero (x_pow k) None = false.
Proof.
  simpl. unfold poly_is_zero. apply bool_decide_eq_false.
  apply map_non_empty_singleton.
Qed.

Lemma x_pow_leading_term (k : nat) :
  TateAlgebraElement.leading_term (x_pow k) = Some (term Z2 A1 1 k).
Proof.
  unfold TateAlgebraElement.leading_term, TateAlgebraElement.terms,
    TateAlgebraElement.is_zero0.
  rewrite (x_pow_not_zero k : poly_is_zero _ = false).
  unfold TateAlgebraElement.dict. simpl TateAlgebraElement._poly.
  rewrite map_to_list_singleton. reflexivity.
Qed.

Lemma one_minus_x_leading_term :
  TateAlgebraElement.leading_term one_minus_x = Some (term Z2 A1 1 0).
Proof. vm_refl. Qed.

Lemma x_pow_divisible (k : nat) :
  TateAlgebraTerm.is_divisible_by (term Z2 A1 1 k) (term Z2 A1 1 0) false = true.
Proof.
  unfold TateAlgebraTerm.is_divisible_by.
  rewrite !valuation_x_pow. unfold xltb, xcmp. rewrite Qc_of_Z_compare.
  simpl. destruct k; reflexivity.
Qed.

Lemma x_pow_floordiv (k : nat) :
  TateAlgebraTerm.__floordiv__ (term Z2 A1 1 k) (term Z2 A1 1 0)
  = Ok (term Z2 A1 1 k).
Proof.
  unfold TateAlgebraTerm.__floordiv__.
  rewrite !valuation_x_pow. unfold xltb, xcmp. rewrite Qc_of_Z_compare.
  replace (Z.of_nat k ?= Z.of_nat 0)%Z with (if k is O then Eq else Gt)
    by (by destruct k).
  replace (negb is_field && match (if k is O then Eq else Gt) with Lt => true | _ => false end)
    with false by (by destruct k).
  simpl. rewrite Nat.sub_0_r. reflexivity.
Qed.

Lemma x_pow_of_term (k : nat) :
  TateAlgebraElement.of_term A1 (term Z2 A1 1 k) = Ok (x_pow_exact k).
Proof.
  unfold TateAlgebraElement.of_term, TateAlgebraElement.__init__,
    TateAlgebraElement.init_source.
  simpl TateAlgebraTerm._parent.
  replace (TateAlgebraElement.names_eq (variable_names A1) (variable_names A1))
    with true by (by vm_compute).
  replace (TateAlgebraElement.bigger_domain A1 A1 (TateAlgebraElement.e_ratio A1 A1))
    with false by (by vm_compute).
  simpl. unfold x_pow_exact. do 2 f_equal.
  unfold poly_monomial, poly_map. simpl.
  by apply omap_singleton_Some.
Qed.

Lemma one_minus_x_entries :
  map_to_list (TateAlgebraElement._poly one_minus_x) = [([0%nat], 1); ([1%nat], -1)].
Proof. vm_refl. Qed.

Lemma x_pow_step (k : nat) :
  TateAlgebraElement._sub_ (x_pow k)
    (TateAlgebraElement._mul_ (x_pow_exact k) one_minus_x)
  = x_pow (k + 1).
Proof.
  unfold TateAlgebraElement._sub_, TateAlgebraElement._mul_, TateAlgebraElement.make,
    TateAlgebraElement.polynomial, TateAlgebraElement.precision_absolute.
  pose proof one_minus_x_entries as HG.
  set (G := TateAlgebraElement._poly one_minus_x) in *.
  replace (TateAlgebraElement._prec one_minus_x) with (@PInf Qc) by (by vm_compute).
  clearbody G.
  unfold x_pow, x_pow_exact. cbn [TateAlgebraElement._parent TateAlgebraElement._prec
    TateAlgebraElement._poly xadd].
  f_equal.
  unfold poly_mul. rewrite map_to_list_singleton. cbn [foldr].
  replace (map_to_list G) with [([0%nat], 1 : @K Z2); ([1%nat], -1 : @K Z2)] by (symmetry; exact HG).
  cbn [foldr zip_with]. rewrite Nat.add_0_r.
  apply map_eq. intros e.
  rewrite !lookup_poly_map, lookup_poly_sub, !lookup_poly_map, !lookup_poly_add,
    !lookup_poly_monomial, lookup_empty, !lookup_singleton.
  destruct (decide ([k] = e)) as [<-|Hk].
  - rewrite decide_False by (intros [=]; lia).
    rewrite decide_False by (intros [=]; lia).
    vm_compute. reflexivity.
  - destruct (decide ([(k + 1)%nat] = e)) as [<-|Hk1].
    + vm_compute. reflexivity.
    + vm_compute. reflexivity.
Qed.

Lemma quo_rem_loop_x_pow (fuel k : nat) (q0 r : TateAlgebraElement.t) :
  TateAlgebraElement.quo_rem_loop fuel A1 [one_minus_x] [Some (term Z2 A1 1 0)]
    false (x_pow k) [q0] r = NoFuel.
Proof.
  revert k q0 r. induction fuel as [|fuel IH]; intros k q0 r;
    cbn [TateAlgebraElement.quo_rem_loop]; rewrite x_pow_not_zero; [done|].
  rewrite x_pow_leading_term. cbn [TateAlgebraElement.first_divisor].
  rewrite x_pow_divisible. cbn [mbind result_bind].
  rewrite x_pow_floordiv. cbn [mbind result_bind].
  rewrite x_pow_of_term. cbn [mbind result_bind lookup list_lookup].
  rewrite x_pow_step. apply IH.
Qed.

Lemma one_small_add_bigoh :
  TateAlgebraElement.add_bigoh one_small (cap_prec A1) = Ok (x_pow 0).
Proof. vm_refl. Qed.

(** C2 fails on the code: over [Zp(2, 10)], on the disc of log-radius [-1],
    dividing [1] by [1 - x] never leaves the loop of [quo_rem].  The running
    dividend is [x^k + O(2^10)] in round [k]; its coefficient is a unit, no
    truncation removes it, and the loop tests for the exact zero. *)
Theorem quo_rem_never_returns (fuel : nat) :
  TateAlgebraElement.quo_rem fuel one_small (TateAlgebraElement.Single one_minus_x) false
  = NoFuel.
Proof.
  unfold TateAlgebraElement.quo_rem.
  cbn [TateAlgebraElement.as_list map].
  rewrite one_minus_x_leading_term.
  change (TateAlgebraElement._parent one_small) with A1.
  rewrite one_small_add_bigoh. cbn [mbind result_bind].
  apply quo_rem_loop_x_pow.
Qed.
End Divergence.

(** ** The inverse of 2, and [reduce] *)
Section Failures.
Import Padic2 Examples.
Local Open Scope Q_scope.

(** C3 fails on the code: over the field [Qp(2, 10)] the constant [2] is a
    unit for [is_unit], the iteration runs on [2] itself instead of on its
    unit part and reaches [0] in its first round, and the final shift is
    [<< v] and not [>> v].  [inverse_of_unit] returns the zero series, and
    [2] times it, truncated at the precision cap, is not [1] truncated at
    the cap. *)
Theorem inverse_of_two_is_zero :
  TateAlgebraElement.is_unit two = Ok true
  ∧ entries (TateAlgebraElement.inverse_of_unit two) = Some []
  ∧ entries (g ← TateAlgebraElement.inverse_of_unit two;
             TateAlgebraElement.add_bigoh (TateAlgebraElement._mul_ two g) (cap_prec A0))
    = Some []
  ∧ entries (TateAlgebraElement.add_bigoh one (cap_prec A0)) = Some [([0%nat], 1)].
Proof. repeat split; vm_refl. Qed.

(** The same iteration on the doctest of [inverse_of_unit]: [1 + 2*x] over
    [Zp(2, 10)], whose leading coefficient is a unit of valuation 0; here the
    product with the inverse, truncated at the cap, is [1 + O(2^10)]. *)
Example inverse_of_one_plus_2x :
  entries (g ← TateAlgebraElement.inverse_of_unit one_plus_2x;
           TateAlgebraElement.add_bigoh (TateAlgebraElement._mul_ one_plus_2x g) (cap_prec A0))
  = Some [([0%nat], 1)]
  ∧ entries (TateAlgebraElement.add_bigoh (series Z2 A0 [(0%nat, 1)]) (cap_prec A0))
    = Some [([0%nat], 1)].
Proof. split; vm_refl. Qed.

(** [reduce] is [quo_rem] on the Groebner basis, quotients included, and
    [__mod__] keeps the remainder of the same division. *)
Lemma reduce_is_quo_rem `{BaseRing} (fuel : nat) (f : TateAlgebraElement.t)
    (I : TateAlgebraElement.ideal) :
  TateAlgebraElement.reduce fuel f I
  = TateAlgebraElement.quo_rem fuel f
      (TateAlgebraElement.Several (TateAlgebraElement.groebner_basis I)) false
  ∧ TateAlgebraElement.__mod__ fuel f
      (TateAlgebraElement.Several (TateAlgebraElement.groebner_basis I))
    = '(_, r) ← TateAlgebraElement.reduce fuel f I; Ok r.
Proof. split; reflexivity. Qed.

(** C6 fails on the code: [reduce] returns the pair of [quo_rem].  Reducing
    [x^2] by the ideal of [x] gives the quotient list [[x]] together with the
    remainder [0]; [__mod__] returns the remainder alone. *)
Theorem reduce_returns_the_pair :
  pair_entries (TateAlgebraElement.reduce 10 x_squared ideal_x)
  = Some ([[([1%nat], 1)]], [])
  ∧ entries (TateAlgebraElement.__mod__ 10 x_squared
               (TateAlgebraElement.Several (TateAlgebraElement.groebner_basis ideal_x)))
    = Some [].
Proof. split; vm_refl. Qed.
End Failures.

(** ** The properties at concrete terms and series *)
Section Instances.
Import Padic2 Examples.
Local Open Scope Q_scope.

(** C10 at the zero series of [Zp(2, 10)] on the unit disc: no leading term,
    and no leading coefficient either. *)
Lemma leading_coefficient_zero_raises_witness :
  TateAlgebraElement.is_zero zero None = true
  ∧ (∃ msg, TateAlgebraElement.leading_coefficient zero = Raise (TypeError msg))
  ∧ TateAlgebraElement.leading_term zero = None.
Proof.
  split; [vm_refl|].
  apply (leading_coefficient_zero_raises zero). vm_refl.
Defined.

(** C8 as worded fails: on the disc of log-radius [-1] the terms [x] and
    [x^2] have valuations 1 and 2 and coefficients of valuation 0; the code
    returns [gcd = x] and [lcm = x^2] with coefficient [2^0], the wording asks
    for [2^1] and [2^2]. *)
Lemma gcd_is_not_by_term_valuations :
  TateAlgebraTerm.valuation small_x = Fin (Qc_of_Z 1)
  ∧ TateAlgebraTerm.valuation small_x_squared = Fin (Qc_of_Z 2)
  ∧ TateAlgebraTerm.gcd small_x small_x_squared
    ≠ Ok (gcd_of_term_valuations small_x small_x_squared)
  ∧ TateAlgebraTerm.lcm small_x small_x_squared
    ≠ Ok (lcm_of_term_valuations small_x small_x_squared).
Proof.
  split; [apply (valuation_x_pow 1)|].
  split; [apply (valuation_x_pow 2)|].
  split; intros E;
    apply (f_equal (λ r : result (@TateAlgebraTerm.t Z2),
                      match r with
                      | Ok t => Qeq_bool (TateAlgebraTerm._coeff t) 1
                      | _ => false
                      end)) in E;
    vm_compute in E; discriminate E.
Qed.

(** C8 as the code has it, at the same two terms. *)
Lemma gcd_lcm_coefficient_valuations_witness :
  length (TateAlgebraTerm._exponent small_x) = ngens A1
  ∧ length (TateAlgebraTerm._exponent small_x_squared) = ngens A1
  ∧ ∃ g l,
      TateAlgebraTerm.gcd small_x small_x_squared = Ok g
      ∧ TateAlgebraTerm.lcm small_x small_x_squared = Ok l
      ∧ TateAlgebraTerm._coeff g = 1
      ∧ TateAlgebraTerm._coeff l = 1.
Proof.
  split; [reflexivity|]. split; [reflexivity|].
  destruct (gcd_lcm_coefficient_valuations small_x small_x_squared eq_refl eq_refl)
    as (g & l & Hg & Hl & Hcg & Hcl & _).
  exists g, l. repeat split; [exact Hg|exact Hl| |].
  - rewrite Hcg. vm_refl.
  - rewrite Hcl. vm_refl.
Defined.

(** C4 as worded fails: the terms [x] and [3*x] of one algebra are compared
    equal and are not the same term. *)
Lemma cmp_equal_on_distinct_terms :
  TateAlgebraTerm._parent term_x = TateAlgebraTerm._parent term_3x
  ∧ TateAlgebraTerm._cmp_ term_x term_3x = Eq
  ∧ term_x ≠ term_3x.
Proof.
  split; [reflexivity|]. split; [vm_refl|].
  intros E. apply (f_equal TateAlgebraTerm._coeff) in E. discriminate E.
Qed.

(** C4 as the code has it, at [x], [3*x] and [2*x]. *)
Lemma cmp_total_preorder_witness :
  TateAlgebraTerm._cmp_ term_2x term_x = Lt
  ∧ TateAlgebraTerm._cmp_ term_x term_2x = Gt
  ∧ (TateAlgebraTerm._cmp_ term_x term_3x = Eq ↔
     TateAlgebraTerm.valuation term_x = TateAlgebraTerm.valuation term_3x
     ∧ sortkey A0 (TateAlgebraTerm.exponent term_x)
       = sortkey A0 (TateAlgebraTerm.exponent term_3x)).
Proof.
  destruct (cmp_total_preorder A0 term_x term_3x term_2x eq_refl eq_refl eq_refl)
    as (_ & _ & _ & Heq & _).
  destruct (cmp_total_preorder A0 term_2x term_x term_3x eq_refl eq_refl eq_refl)
    as (Hopp & _).
  split; [vm_refl|]. split; [|exact Heq].
  rewrite Hopp. vm_refl.
Defined.

(** C5 as worded fails on the doctest of [restriction]: a series (or a term)
    of the unit disc is accepted by the algebra of log-radius [-1], whose
    log-radius is not at least that of the source. *)
Lemma restriction_to_smaller_disc :
  variable_names A0 = variable_names A1
  ∧ parent_is A0 A1 = false
  ∧ (∃ y, TateAlgebraElement.__init__ A1 (TateAlgebraElement.OfElement x) None true = Ok y)
  ∧ (∃ y, TateAlgebraElement.__init__ A1 (TateAlgebraElement.OfTerm term_x) None true = Ok y)
  ∧ ¬ stated_legal A1 A0.
Proof.
  split; [reflexivity|]. split; [reflexivity|].
  split; [apply returns_Ok; vm_refl|].
  split; [apply returns_Ok; vm_refl|].
  intros Hl. specialize (Hl 0%nat (Nat.lt_0_succ 0)).
  revert Hl. apply Qclt_not_le. unfold Qclt, Qlt, Z.lt. vm_refl.
Qed.

(** C5 as the code has it, at the same restriction. *)
Lemma init_restriction_witness :
  source_algebra (TateAlgebraElement.OfElement x) = Some A0
  ∧ parent_is A0 A1 = false
  ∧ variable_names A0 = variable_names A1
  ∧ ∃ y, TateAlgebraElement.__init__ A1 (TateAlgebraElement.OfElement x) None true = Ok y.
Proof.
  split; [reflexivity|]. split; [reflexivity|]. split; [reflexivity|].
  apply (init_restriction A1 A0 (TateAlgebraElement.OfElement x) None true
           eq_refl eq_refl eq_refl).
  intros i Hi. assert (i = 0%nat) as -> by (apply Nat.lt_1_r; exact Hi).
  apply Qclt_le_weak. unfold Qclt, Qlt, Z.lt. vm_refl.
Defined.

Lemma one_plus_half_x_squared_fits : exponents_fit one_plus_half_x_squared.
Proof.
  intros e [c Hc]. apply elem_of_map_to_list in Hc.
  replace (map_to_list (TateAlgebraElement._poly one_plus_half_x_squared))
    with [([2%nat], 1 # 2 : @K Z2); ([0%nat], 1 : @K Z2)] in Hc by (symmetry; vm_refl).
  apply list_elem_of_In in Hc. simpl in Hc.
  destruct Hc as [Hc|[Hc|[]]]; injection Hc as <- _; reflexivity.
Qed.

(** C7 fails on the code.  Over [Zp(2, 10)], on the disc of log-radius [-1],
    the series [1 + (1/2)*x^2] is a unit: its terms have valuations 0 and 1,
    [is_unit()] returns [True] and no clause of "not a unit" holds.  Yet
    [inverse_of_unit()] raises: the shift that ends it converts the
    coefficients of the iterated inverse to the base ring, and one of them
    has negative valuation. *)
Theorem inverse_of_unit_raises_on_a_unit :
  TateAlgebraElement.is_unit one_plus_half_x_squared = Ok true
  ∧ exponents_fit one_plus_half_x_squared
  ∧ ¬ not_a_unit one_plus_half_x_squared
  ∧ ∃ msg, TateAlgebraElement.inverse_of_unit one_plus_half_x_squared
           = Raise (ValueError msg)
           ∧ msg ≠ "This series in not invertible"%string.
Proof.
  assert (Hu : TateAlgebraElement.is_unit one_plus_half_x_squared = Ok true) by vm_refl.
  split; [exact Hu|]. split; [exact one_plus_half_x_squared_fits|]. split.
  - destruct (is_unit_returns one_plus_half_x_squared (Nat.lt_0_succ 0)
                one_plus_half_x_squared_fits) as (b & Hb & Hspec).
    rewrite Hu in Hb. injection Hb as <-. intros Hn. by apply Hspec in Hn.
  - exists "negative valuation"%string. split; [vm_refl|discriminate].
Qed.
End Instances.

(** * Further properties of the code *)

(** ** Numbers, comparisons and tuples *)

Lemma Qc_of_Z_plus (a b : Z) : Qc_of_Z (a + b) = (Qc_of_Z a + Qc_of_Z b)%Qc.
Proof.
  apply Qc_is_canon. unfold Qc_of_Z. simpl.
  rewrite !Qred_correct, inject_Z_plus. reflexivity.
Qed.

Lemma Qc_of_Z_opp (n : Z) : Qc_of_Z (- n) = (- Qc_of_Z n)%Qc.
Proof.
  apply Qc_is_canon. unfold Qc_of_Z. simpl.
  rewrite !Qred_correct. unfold Qeq. simpl. lia.
Qed.

Lemma Qcopp_lt (p q : Qc) : (p < q)%Qc → (- q < - p)%Qc.
Proof.
  intros Hlt. apply Qclt_minus_iff. apply Qclt_minus_iff in Hlt.
  by replace (- p + - - q)%Qc with (q + - p)%Qc by ring.
Qed.

Lemma tw_refl {A} (cmp : A → A → comparison) : three_way cmp → ∀ x, cmp x x = Eq.
Proof. intros W x. pose proof (tw_opp cmp W x x) as E. by destruct (cmp x x). Qed.

Lemma tw_ge_trans {A} (cmp : A → A → comparison) :
  three_way cmp → ∀ x y z, cmp x y ≠ Lt → cmp y z ≠ Lt → cmp x z ≠ Lt.
Proof.
  intros W x y z Hxy Hyz.
  assert (Hzx : cmp z x ≠ Gt).
  { apply (tw_le_trans cmp W z y x).
    - rewrite (tw_opp cmp W y z). by destruct (cmp y z).
    - rewrite (tw_opp cmp W x y). by destruct (cmp x y). }
  rewrite (tw_opp cmp W z x). by destruct (cmp z x).
Qed.

Lemma tw_ge_total {A} (cmp : A → A → comparison) :
  three_way cmp → ∀ x y, cmp x y ≠ Lt ∨ cmp y x ≠ Lt.
Proof.
  intros W x y. rewrite (tw_opp cmp W x y). destruct (cmp x y); simpl; auto.
Qed.

Lemma three_way_v : three_way vcmp.
Proof. apply three_way_ext, three_way_Qc. Qed.

Lemma vcmp_xopp (a b : ext Qc) : vcmp (xopp a) (xopp b) = vcmp b a.
Proof.
  destruct a as [|a|], b as [|b|]; try done. cbn [xopp xcmp].
  destruct (b ?= a)%Qc eqn:E.
  - apply Qceq_alt in E. subst. by apply Qceq_alt.
  - apply Qclt_alt in E. apply Qclt_alt. by apply Qcopp_lt.
  - apply Qcgt_alt in E. apply Qcgt_alt. by apply Qcopp_lt.
Qed.

Lemma vltb_false (x y : ext Qc) : vltb x y = false ↔ vcmp y x ≠ Gt.
Proof.
  unfold xltb. rewrite (tw_opp _ three_way_v x y).
  destruct (vcmp x y); simpl; split; congruence.
Qed.

Lemma vmin_le_l (a b : ext Qc) : vcmp (vmin a b) a ≠ Gt.
Proof.
  unfold xmin, xltb. destruct (vcmp b a) eqn:E; [|by rewrite E|];
    by rewrite (tw_refl _ three_way_v).
Qed.

Lemma vmin_le_r (a b : ext Qc) : vcmp (vmin a b) b ≠ Gt.
Proof.
  unfold xmin, xltb. rewrite (tw_opp _ three_way_v a b).
  destruct (vcmp a b) eqn:E; simpl; rewrite ?E; try done.
  by rewrite (tw_refl _ three_way_v).
Qed.

Lemma vmin_vmin_r (p n : ext Qc) : vmin (vmin p n) n = vmin p n.
Proof.
  unfold xmin at 1.
  by rewrite (proj2 (vltb_false n (vmin p n)) (vmin_le_r p n)).
Qed.

Lemma vmin_glb (p a b : ext Qc) : vcmp p a ≠ Gt → vcmp p b ≠ Gt → vcmp p (vmin a b) ≠ Gt.
Proof. intros Ha Hb. unfold xmin. by destruct (vltb b a). Qed.

Lemma vcmp_PInf_r (x : ext Qc) : vcmp x PInf ≠ Gt.
Proof. by destruct x. Qed.

Lemma vltb_le_trans (x p q : ext Qc) :
  vltb x p = true → vcmp p q ≠ Gt → vltb x q = true.
Proof.
  unfold xltb. intros Hx Hpq.
  assert (E : vcmp x p = Lt) by (by destruct (vcmp x p)).
  destruct (vcmp p q) eqn:Epq; [| |done].
  - by rewrite <- (tw_eq_r _ three_way_v x p q Epq), E.
  - by rewrite (tw_trans _ three_way_v Lt x p q E Epq).
Qed.

Lemma xsub_xadd (a b : ext Qc) (w1 w2 : Qc) :
  xsub (xadd a b) (Fin (w1 + w2)%Qc) = xadd (xsub a (Fin w1)) (xsub b (Fin w2)).
Proof.
  destruct a as [|a|], b as [|b|]; cbn [xsub xadd xopp]; try done.
  f_equal. ring.
Qed.

Lemma xadd_shift_back (p : ext Qc) (n : Z) :
  xadd (xadd p (Fin (Qc_of_Z n))) (Fin (Qc_of_Z (- n))) = p.
Proof.
  destruct p as [|q|]; cbn [xadd]; try done.
  f_equal. rewrite Qc_of_Z_opp. ring.
Qed.

Lemma foldl_sum_split (g1 g2 h : nat → Qc) (l : list nat) (a b : Qc) :
  (∀ i, In i l → h i = (g1 i + g2 i)%Qc) →
  foldl (λ acc i, acc + h i)%Qc (a + b)%Qc l
  = (foldl (λ acc i, acc + g1 i)%Qc a l + foldl (λ acc i, acc + g2 i)%Qc b l)%Qc.
Proof.
  revert a b. induction l as [|i l IH]; intros a b Hh; simpl; [done|].
  rewrite <- IH by (intros j Hj; apply Hh; by right).
  f_equal. rewrite (Hh i) by (by left). ring.
Qed.

Lemma weighted_degree_sum (A : TateAlgebra) (e f : list nat) :
  length e = ngens A → length f = ngens A →
  weighted_degree A (zip_with Nat.add e f)
  = (weighted_degree A e + weighted_degree A f)%Qc.
Proof.
  intros He Hf. unfold weighted_degree.
  rewrite <- foldl_sum_split with (h := λ i,
    (Qc_of_Z (Z.of_nat (nth i (zip_with Nat.add e f) 0%nat)) * nth i (log_radii A) 0)%Qc).
  - f_equal; ring.
  - intros i Hi. apply in_seq in Hi.
    rewrite nth_zip_with by lia. rewrite Nat2Z.inj_add, Qc_of_Z_plus. ring.
Qed.

(** [eadd] returns the component-wise sum when every component of it fits a
    C int, and raises when one does not. *)
Lemma eadd_returns (n : nat) (e f : list nat) :
  length e = n → length f = n →
  (∀ i, (i < n)%nat → Z.of_nat (nth i e 0 + nth i f 0)%nat ≤ INT_MAX) →
  eadd e f = Ok (zip_with Nat.add e f).
Proof.
  intros He Hf Hfit. unfold eadd. cbv zeta.
  rewrite (proj2 (forallb_forall _ _)); [done|].
  intros s Hs. apply (In_nth _ _ 0%nat) in Hs as (i & Hi & <-).
  rewrite length_zip_with in Hi. rewrite nth_zip_with by lia.
  apply Z.leb_le, Hfit. lia.
Qed.

Lemma eadd_overflows (n : nat) (e f : list nat) :
  length e = n → length f = n →
  (∃ i, (i < n)%nat ∧ INT_MAX < Z.of_nat (nth i e 0 + nth i f 0)%nat) →
  ∃ msg, eadd e f = Raise (OverflowError msg).
Proof.
  intros He Hf (i & Hi & Hbig). unfold eadd. cbv zeta.
  destruct (forallb _ _) eqn:E; [|eauto]. exfalso.
  pose proof (proj1 (forallb_forall _ _) E (nth i (zip_with Nat.add e f) 0%nat)) as Hle.
  rewrite nth_zip_with in Hle by lia.
  assert (Hin : In (nth i e 0 + nth i f 0)%nat (zip_with Nat.add e f)).
  { rewrite <- (nth_zip_with Nat.add e f i) by lia.
    apply nth_In. rewrite length_zip_with. lia. }
  apply Hle, Z.leb_le in Hin. lia.
Qed.

Lemma esub_sum (n : nat) (e f : list nat) (i : nat) :
  length e = n → length f = n →
  (∀ i, (i < n)%nat → (nth i f 0 ≤ nth i e 0)%nat) →
  (i < n)%nat →
  (nth i (esub e f) 0 + nth i f 0 = nth i e 0)%nat.
Proof.
  intros He Hf Hle Hi. unfold esub.
  rewrite nth_zip_with by lia. specialize (Hle i Hi). lia.
Qed.

Lemma lookup_map {A B : Type} (g : A → B) (l : list A) (i : nat) :
  map g l !! i = g <$> l !! i.
Proof. revert i. induction l as [|x l IH]; intros [|i]; simpl; auto. Qed.

Lemma e_ratio_same (A : TateAlgebra) : TateAlgebraElement.e_ratio A A = 1%Qc.
Proof.
  apply Qc_is_canon. unfold TateAlgebraElement.e_ratio. simpl.
  rewrite Qred_correct. unfold Qeq. simpl. lia.
Qed.

Lemma bigger_domain_same (A : TateAlgebra) :
  TateAlgebraElement.bigger_domain A A (TateAlgebraElement.e_ratio A A) = false.
Proof.
  apply bigger_domain_false. intros i _. rewrite e_ratio_same, Qcmult_1_r.
  apply Qcle_refl.
Qed.

Lemma some_smaller_false (n : nat) (e f : list nat) :
  TateAlgebraTerm.some_smaller n e f = false ↔
  ∀ i, (i < n)%nat → (nth i f 0 ≤ nth i e 0)%nat.
Proof.
  unfold TateAlgebraTerm.some_smaller.
  rewrite <- not_true_iff_false, existsb_exists. split.
  - intros Hn i Hi. apply Nat.nlt_ge. intros Hlt. apply Hn. exists i.
    split; [apply in_seq; lia|]. by apply Nat.ltb_lt.
  - intros Ha (i & Hi & Hlt). apply in_seq in Hi. apply Nat.ltb_lt in Hlt.
    specialize (Ha i). lia.
Qed.

Lemma share_variable_false (n : nat) (e f : list nat) :
  TateAlgebraTerm.share_variable n e f = false ↔
  ∀ i, (i < n)%nat → Nat.min (nth i e 0%nat) (nth i f 0%nat) = 0%nat.
Proof.
  unfold TateAlgebraTerm.share_variable.
  rewrite <- not_true_iff_false, existsb_exists. split.
  - intros Hn i Hi.
    destruct (Nat.eq_dec (Nat.min (nth i e 0%nat) (nth i f 0%nat)) 0%nat) as [|Hne]; [done|].
    exfalso. apply Hn. exists i. split; [apply in_seq; lia|].
    apply andb_true_iff. split; apply Nat.ltb_lt; lia.
  - intros Ha (i & Hi & Hlt). apply in_seq in Hi.
    apply andb_true_iff in Hlt as [Ha1 Ha2]. apply Nat.ltb_lt in Ha1, Ha2.
    specialize (Ha i). lia.
Qed.

Lemma share_variable_sym (n : nat) (e f : list nat) :
  TateAlgebraTerm.share_variable n e f = TateAlgebraTerm.share_variable n f e.
Proof.
  unfold TateAlgebraTerm.share_variable.
  induction (seq 0 n) as [|i idx IH]; simpl; [done|].
  by rewrite IH, (andb_comm (Nat.ltb 0 (nth i e 0%nat))).
Qed.

(** ** Terms: products, exact quotients, divisibility *)

Section TermArithmetic.
Context `{BaseRing}.


(** X1: the product of two terms of one algebra, each with [ngens]
    exponents, raises [OverflowError] when a sum of two exponents does not
    fit a C int; otherwise it is the term with the product of the
    coefficients and the sum of the exponents, and where the valuation of the
    base ring is additive on the two coefficients, its valuation is the sum
    of the valuations of the factors. *)
Theorem term_mul_valuation (t1 t2 : TateAlgebraTerm.t) :
  let A := TateAlgebraTerm._parent t1 in
  let c1 := TateAlgebraTerm._coeff t1 in
  let c2 := TateAlgebraTerm._coeff t2 in
  let e1 := TateAlgebraTerm._exponent t1 in
  let e2 := TateAlgebraTerm._exponent t2 in
  TateAlgebraTerm._parent t2 = A →
  length e1 = ngens A → length e2 = ngens A →
  ((∃ i, (i < ngens A)%nat ∧ INT_MAX < Z.of_nat (nth i e1 0 + nth i e2 0)%nat) →
   ∃ msg, TateAlgebraTerm._mul_ t1 t2 = Raise (OverflowError msg))
  ∧ ((∀ i, (i < ngens A)%nat → Z.of_nat (nth i e1 0 + nth i e2 0)%nat ≤ INT_MAX) →
     ∃ p, TateAlgebraTerm._mul_ t1 t2 = Ok p
          ∧ TateAlgebraTerm._parent p = A
          ∧ TateAlgebraTerm._coeff p = Kmul c1 c2
          ∧ length (TateAlgebraTerm._exponent p) = ngens A
          ∧ (∀ i, (i < ngens A)%nat →
               nth i (TateAlgebraTerm._exponent p) 0%nat = (nth i e1 0 + nth i e2 0)%nat)
          ∧ (xinj (Kvaluation (Kmul c1 c2))
               = xadd (xinj (Kvaluation c1)) (xinj (Kvaluation c2)) →
             TateAlgebraTerm.valuation p
             = xadd (TateAlgebraTerm.valuation t1) (TateAlgebraTerm.valuation t2))).
Proof.
  intros A c1 c2 e1 e2 HP H1 H2.
  unfold TateAlgebraTerm._mul_, TateAlgebraTerm.exponent, TateAlgebraTerm.coefficient.
  fold A c1 c2 e1 e2. split.
  - intros Hbig. destruct (eadd_overflows (ngens A) e1 e2 H1 H2 Hbig) as [msg ->].
    by exists msg.
  - intros Hfit. rewrite (eadd_returns (ngens A) e1 e2 H1 H2 Hfit).
    cbn [mbind result_bind]. unfold TateAlgebraTerm.__init__.
    assert (Hlen : length (zip_with Nat.add e1 e2) = ngens A)
      by (rewrite length_zip_with; lia).
    rewrite bool_decide_eq_false_2 by (rewrite Hlen; auto).
    eexists. split; [reflexivity|]. cbn [TateAlgebraTerm._parent TateAlgebraTerm._coeff
      TateAlgebraTerm._exponent].
    split; [done|]. split; [done|]. split; [done|]. split.
    + intros i Hi. apply nth_zip_with; lia.
    + intros Hv. unfold TateAlgebraTerm.valuation. cbn [TateAlgebraTerm._parent
        TateAlgebraTerm._coeff TateAlgebraTerm._exponent]. fold c1 c2 e1 e2 A.
      rewrite HP. fold A.
      rewrite Hv, weighted_degree_sum by done. apply xsub_xadd.
Qed.

(** X2: [t1 // t2] raises "The division is not exact" when [t1] is not
    divisible by [t2]; when it is, the division raises [ZeroDivisionError] on
    a zero coefficient of [t2], and otherwise returns the term with the
    quotient of the coefficients whose exponents, added to those of [t2],
    give back the exponents of [t1]. *)
Theorem term_floordiv_exact (t1 t2 : TateAlgebraTerm.t) :
  let A := TateAlgebraTerm._parent t1 in
  length (TateAlgebraTerm._exponent t1) = ngens A →
  length (TateAlgebraTerm._exponent t2) = ngens A →
  (TateAlgebraTerm.is_divisible_by t1 t2 false = false →
   TateAlgebraTerm.__floordiv__ t1 t2 = Raise (ValueError "The division is not exact"))
  ∧ (TateAlgebraTerm.is_divisible_by t1 t2 false = true →
     Kis_zero (TateAlgebraTerm._coeff t2) = true →
     ∃ msg, TateAlgebraTerm.__floordiv__ t1 t2 = Raise (ZeroDivisionError msg))
  ∧ (TateAlgebraTerm.is_divisible_by t1 t2 false = true →
     Kis_zero (TateAlgebraTerm._coeff t2) = false →
     ∃ q, TateAlgebraTerm.__floordiv__ t1 t2 = Ok q
          ∧ TateAlgebraTerm._parent q = A
          ∧ TateAlgebraTerm._coeff q
            = Kdiv (TateAlgebraTerm._coeff t1) (TateAlgebraTerm._coeff t2)
          ∧ length (TateAlgebraTerm._exponent q) = ngens A
          ∧ ∀ i, (i < ngens A)%nat →
              (nth i (TateAlgebraTerm._exponent q) 0
               + nth i (TateAlgebraTerm._exponent t2) 0
               = nth i (TateAlgebraTerm._exponent t1) 0)%nat).
Proof.
  intros A H1 H2.
  assert (Hlen : length (esub (TateAlgebraTerm._exponent t1) (TateAlgebraTerm._exponent t2))
                 = ngens A) by (unfold esub; rewrite length_zip_with; lia).
  unfold TateAlgebraTerm.is_divisible_by, TateAlgebraTerm.__floordiv__,
    TateAlgebraTerm.truediv, TateAlgebraTerm.__init__, TateAlgebraTerm.exponent,
    TateAlgebraTerm.coefficient.
  fold A. cbn [orb].
  destruct (negb is_field && vltb (TateAlgebraTerm.valuation t1) (TateAlgebraTerm.valuation t2));
    [split; [done|split; discriminate]|].
  destruct (TateAlgebraTerm.some_smaller (ngens A) (TateAlgebraTerm._exponent t1)
              (TateAlgebraTerm._exponent t2)) eqn:Hs; cbn [negb];
    [split; [done|split; discriminate]|].
  split; [discriminate|]. split.
  - intros _ ->. cbn [mbind result_bind]. eauto.
  - intros _ ->. cbn [mbind result_bind].
    rewrite bool_decide_eq_false_2 by (rewrite Hlen; auto).
    eexists. split; [reflexivity|]. split; [done|]. split; [done|].
    split; [exact Hlen|]. cbn [TateAlgebraTerm._exponent]. intros i Hi.
    apply (esub_sum (ngens A)); try done. by apply some_smaller_false.
Qed.

(** X3: among the terms of one algebra [is_divisible_by] is reflexive and
    transitive, with and without [integral]. *)
Theorem is_divisible_by_preorder (t1 t2 t3 : TateAlgebraTerm.t) (integral : bool) :
  TateAlgebraTerm._parent t2 = TateAlgebraTerm._parent t1 →
  TateAlgebraTerm.is_divisible_by t1 t1 integral = true
  ∧ (TateAlgebraTerm.is_divisible_by t1 t2 integral = true →
     TateAlgebraTerm.is_divisible_by t2 t3 integral = true →
     TateAlgebraTerm.is_divisible_by t1 t3 integral = true).
Proof.
  intros HP. unfold TateAlgebraTerm.is_divisible_by, TateAlgebraTerm.exponent.
  rewrite HP. set (n := ngens (TateAlgebraTerm._parent t1)).
  pose proof (three_way_ext _ three_way_Qc) as W. split.
  - replace (vltb (TateAlgebraTerm.valuation t1) (TateAlgebraTerm.valuation t1))
      with false.
    + rewrite andb_false_r. apply negb_true_iff, some_smaller_false. intros; lia.
    + symmetry. apply vltb_false. by rewrite (tw_refl _ W).
  - destruct (integral || negb is_field); cbn [andb].
    + destruct (vltb (TateAlgebraTerm.valuation t1) (TateAlgebraTerm.valuation t2)) eqn:V12;
        [discriminate|].
      destruct (vltb (TateAlgebraTerm.valuation t2) (TateAlgebraTerm.valuation t3)) eqn:V23;
        [discriminate|].
      apply vltb_false in V12, V23.
      pose proof (tw_le_trans _ W _ _ _ V23 V12) as V13. apply vltb_false in V13.
      rewrite V13. rewrite !negb_true_iff, !some_smaller_false.
      intros H12 H23 i Hi. specialize (H12 i Hi). specialize (H23 i Hi). lia.
    + rewrite !negb_true_iff, !some_smaller_false.
      intros H12 H23 i Hi. specialize (H12 i Hi). specialize (H23 i Hi). lia.
Qed.


(** [gcd] and [lcm] of two terms with [ngens] exponents each return, with the
    component-wise min and max of the exponents. *)
Lemma gcd_lcm_returns (t1 t2 : TateAlgebraTerm.t) :
  let A := TateAlgebraTerm._parent t1 in
  let e1 := TateAlgebraTerm._exponent t1 in
  let e2 := TateAlgebraTerm._exponent t2 in
  length e1 = ngens A → length e2 = ngens A →
  ∃ g l,
    TateAlgebraTerm.gcd t1 t2 = Ok g ∧ TateAlgebraTerm.lcm t1 t2 = Ok l
    ∧ TateAlgebraTerm._parent g = A ∧ TateAlgebraTerm._parent l = A
    ∧ TateAlgebraTerm._exponent g = emin e1 e2
    ∧ TateAlgebraTerm._exponent l = emax e1 e2
    ∧ ∀ i, (i < ngens A)%nat →
        nth i (emin e1 e2) 0%nat = Nat.min (nth i e1 0%nat) (nth i e2 0%nat)
        ∧ nth i (emax e1 e2) 0%nat = Nat.max (nth i e1 0%nat) (nth i e2 0%nat).
Proof.
  intros A e1 e2 H1 H2.
  unfold TateAlgebraTerm.gcd, TateAlgebraTerm.lcm, TateAlgebraTerm.__init__,
    TateAlgebraTerm.exponent. fold A e1 e2.
  rewrite !bool_decide_eq_false_2
    by (unfold emin, emax; rewrite length_zip_with; lia).
  eexists _, _. repeat split.
  - unfold emin. apply nth_zip_with; lia.
  - unfold emax. apply nth_zip_with; lia.
Qed.

(** X4: the exponents of [gcd(t1, t2)] and of [lcm(t1, t2)] add up to those
    of [t1] and [t2] together; over a field the gcd divides both terms and
    both terms divide the lcm. *)
Theorem gcd_lcm_divisibility (t1 t2 : TateAlgebraTerm.t) :
  let A := TateAlgebraTerm._parent t1 in
  let e1 := TateAlgebraTerm._exponent t1 in
  let e2 := TateAlgebraTerm._exponent t2 in
  TateAlgebraTerm._parent t2 = A →
  length e1 = ngens A → length e2 = ngens A →
  ∃ g l,
    TateAlgebraTerm.gcd t1 t2 = Ok g ∧ TateAlgebraTerm.lcm t1 t2 = Ok l
    ∧ eadd (TateAlgebraTerm._exponent g) (TateAlgebraTerm._exponent l) = eadd e1 e2
    ∧ (is_field = true →
       TateAlgebraTerm.is_divisible_by t1 g false = true
       ∧ TateAlgebraTerm.is_divisible_by t2 g false = true
       ∧ TateAlgebraTerm.is_divisible_by l t1 false = true
       ∧ TateAlgebraTerm.is_divisible_by l t2 false = true).
Proof.
  intros A e1 e2 HP H1 H2.
  destruct (gcd_lcm_returns t1 t2 H1 H2)
    as (g & l & Hg & Hl & HPg & HPl & Heg & Hel & Hnth).
  fold A e1 e2 in HPg, HPl, Heg, Hel, Hnth.
  assert (Hlg : length (emin e1 e2) = ngens A)
    by (unfold emin; rewrite length_zip_with; lia).
  assert (Hll : length (emax e1 e2) = ngens A)
    by (unfold emax; rewrite length_zip_with; lia).
  exists g, l. split; [done|]. split; [done|]. rewrite Heg, Hel. split.
  - unfold eadd.
    replace (zip_with Nat.add (emin e1 e2) (emax e1 e2)) with (zip_with Nat.add e1 e2);
      [done|].
    apply (nth_ext _ _ 0%nat 0%nat); [rewrite !length_zip_with; lia|].
    intros i Hi. rewrite length_zip_with in Hi.
    rewrite !nth_zip_with by lia.
    destruct (Hnth i ltac:(lia)) as [-> ->]. lia.
  - intros Hf. unfold TateAlgebraTerm.is_divisible_by, TateAlgebraTerm.exponent.
    rewrite Hf, HP, HPl, Heg, Hel. fold A. cbn [orb negb andb].
    rewrite !negb_true_iff, !some_smaller_false.
    repeat split; intros i Hi; destruct (Hnth i Hi) as [Hgi Hli];
      fold e1 e2; lia.
Qed.

(** X5: [is_coprime_with] is symmetric.  Two terms that it declares coprime
    have a gcd with all exponents zero, and over a field the converse holds
    as well. *)
Theorem is_coprime_with_gcd (t1 t2 : TateAlgebraTerm.t) :
  let A := TateAlgebraTerm._parent t1 in
  TateAlgebraTerm._parent t2 = A →
  length (TateAlgebraTerm._exponent t1) = ngens A →
  length (TateAlgebraTerm._exponent t2) = ngens A →
  TateAlgebraTerm.is_coprime_with t1 t2 = TateAlgebraTerm.is_coprime_with t2 t1
  ∧ ∃ g, TateAlgebraTerm.gcd t1 t2 = Ok g
         ∧ (TateAlgebraTerm.is_coprime_with t1 t2 = true →
            ∀ i, (i < ngens A)%nat → nth i (TateAlgebraTerm._exponent g) 0%nat = 0%nat)
         ∧ (is_field = true →
            (∀ i, (i < ngens A)%nat → nth i (TateAlgebraTerm._exponent g) 0%nat = 0%nat) →
            TateAlgebraTerm.is_coprime_with t1 t2 = true).
Proof.
  intros A HP H1 H2.
  destruct (gcd_lcm_returns t1 t2 H1 H2)
    as (g & l & Hg & _ & _ & _ & Heg & _ & Hnth).
  fold A in Heg, Hnth. rewrite <- Heg in Hnth.
  unfold TateAlgebraTerm.is_coprime_with, TateAlgebraTerm.exponent. rewrite HP. fold A.
  split.
  - pose proof (share_variable_sym (ngens A) (TateAlgebraTerm._exponent t1)
                  (TateAlgebraTerm._exponent t2)) as Hsym.
    rewrite Hsym. clear Hsym. destruct (TateAlgebraTerm.share_variable _ _ _); [done|].
    destruct is_field; [done|]. apply orb_comm.
  - exists g. split; [done|].
    destruct (TateAlgebraTerm.share_variable (ngens A) (TateAlgebraTerm._exponent t1)
                (TateAlgebraTerm._exponent t2)) eqn:Hs.
    + split; [discriminate|]. intros _ Hz.
      assert (Hf : TateAlgebraTerm.share_variable (ngens A) (TateAlgebraTerm._exponent t1)
                     (TateAlgebraTerm._exponent t2) = false).
      { apply share_variable_false. intros i Hi.
        rewrite <- (proj1 (Hnth i Hi)). by apply Hz. }
      congruence.
    + split.
      * intros _ i Hi. rewrite (proj1 (Hnth i Hi)).
        by apply (proj1 (share_variable_false _ _ _) Hs).
      * intros -> _. done.
Qed.
End TermArithmetic.

(** ** Merge sort under two relations that agree on the elements sorted *)
Section merge_sort_ext.
Context {A : Type} (R1 R2 : relation A) (P : A → Prop).
Context `{∀ x y, Decision (R1 x y)} `{∀ x y, Decision (R2 x y)}.
Hypothesis agree : ∀ x y, P x → P y → (R1 x y ↔ R2 x y).

Lemma list_merge_ext (l1 l2 : list A) :
  Forall P l1 → Forall P l2 → list_merge R1 l1 l2 = list_merge R2 l1 l2.
Proof.
  intros H1 H2. revert l2 H2.
  induction H1 as [|x1 l1 Hx1 Hl1 IH1]; intros l2 H2.
  - by rewrite !list_merge_nil_l.
  - induction H2 as [|x2 l2 Hx2 Hl2 IH2].
    + by rewrite !list_merge_nil_r.
    + rewrite !list_merge_cons.
      destruct (decide (R1 x1 x2)) as [r|r], (decide (R2 x1 x2)) as [r'|r'].
      * f_equal. apply IH1. by constructor.
      * exfalso. apply r'. by apply agree.
      * exfalso. apply r. by apply agree.
      * f_equal. apply IH2.
Qed.

Lemma list_merge_Forall (l1 l2 : list A) :
  Forall P l1 → Forall P l2 → Forall P (list_merge R1 l1 l2).
Proof.
  intros H1 H2. rewrite (merge_Permutation R1 l1 l2). by apply Forall_app.
Qed.

Definition stack_in (st : list (option (list A))) : Prop :=
  Forall (λ o, match o with Some l => Forall P l | None => True end) st.

Lemma merge_list_to_stack_ext (st : list (option (list A))) (l : list A) :
  stack_in st → Forall P l →
  merge_list_to_stack R1 st l = merge_list_to_stack R2 st l
  ∧ stack_in (merge_list_to_stack R1 st l).
Proof.
  intros Hst. revert l. induction Hst as [|[l'|] st Hl' Hst IH]; intros l Hl; simpl.
  - split; [done|]. by repeat constructor.
  - destruct (IH (list_merge R1 l' l) (list_merge_Forall _ _ Hl' Hl)) as [E S].
    split; [by rewrite <- (list_merge_ext l' l Hl' Hl), E|]. by constructor.
  - split; [done|]. by constructor.
Qed.

Lemma merge_stack_ext (st : list (option (list A))) :
  stack_in st →
  merge_stack R1 st = merge_stack R2 st ∧ Forall P (merge_stack R1 st).
Proof.
  induction 1 as [|[l'|] st Hl' Hst [E S]]; simpl; [done| |done].
  rewrite <- E. split; [by apply list_merge_ext|by apply list_merge_Forall].
Qed.

Lemma merge_sort_aux_ext (st : list (option (list A))) (l : list A) :
  stack_in st → Forall P l → merge_sort_aux R1 st l = merge_sort_aux R2 st l.
Proof.
  intros Hst Hl. revert st Hst. induction Hl as [|x l Hx Hl IH]; intros st Hst; simpl.
  - by apply merge_stack_ext.
  - destruct (merge_list_to_stack_ext st [x] Hst) as [E S]; [by repeat constructor|].
    rewrite <- E. by apply IH.
Qed.

Lemma merge_sort_ext (l : list A) :
  Forall P l → merge_sort R1 l = merge_sort R2 l.
Proof. intros Hl. apply merge_sort_aux_ext; [constructor|done]. Qed.
End merge_sort_ext.

(** ** The sorted terms of a series *)

Section Terms.
Context `{BaseRing}.

Lemma terms_Permutation (f : TateAlgebraElement.t) :
  map entry (TateAlgebraElement.terms f) ≡ₚ map_to_list (TateAlgebraElement.dict f)
  ∧ Forall (λ t, TateAlgebraTerm._parent t = TateAlgebraElement._parent f)
           (TateAlgebraElement.terms f).
Proof.
  unfold TateAlgebraElement.terms, TateAlgebraElement.is_zero0, poly_is_zero,
    TateAlgebraElement.dict.
  destruct (bool_decide_reflect (TateAlgebraElement._poly f = ∅)) as [E|E].
  - rewrite E, map_to_list_empty. by split.
  - set (mk := λ '(e, c), {| TateAlgebraTerm._parent := TateAlgebraElement._parent f;
                            TateAlgebraTerm._coeff := c;
                            TateAlgebraTerm._exponent := e |}).
    pose proof (merge_sort_Permutation TateAlgebraElement.term_ge
                  (map mk (map_to_list (TateAlgebraElement._poly f)))) as Hp.
    split.
    + rewrite Hp, map_map. rewrite map_ext with (g := id); [by rewrite map_id|].
      by intros [e c].
    + rewrite Hp. apply List.Forall_forall. intros t Ht.
      apply in_map_iff in Ht as ([e c] & <- & _). done.
Qed.

Lemma terms_StronglySorted (f : TateAlgebraElement.t) :
  StronglySorted (λ a b, TateAlgebraTerm._cmp_ a b ≠ Lt) (TateAlgebraElement.terms f).
Proof.
  set (A := TateAlgebraElement._parent f).
  set (R2 := λ a b : TateAlgebraTerm.t,
     match vcmp (xopp (TateAlgebraTerm.valuation a)) (xopp (TateAlgebraTerm.valuation b)) with
     | Eq => tuple_cmp (sortkey A (TateAlgebraTerm._exponent a))
                       (sortkey A (TateAlgebraTerm._exponent b))
     | c => c
     end ≠ Lt).
  pose proof (three_way_cmp A) as W.
  assert (Hdec : ∀ x y, Decision (R2 x y)) by (intros x y; unfold R2; solve_decision).
  assert (Htrans : Transitive R2) by (intros x y z; apply (tw_ge_trans _ W)).
  assert (Htotal : Total R2) by (intros x y; apply (tw_ge_total _ W)).
  assert (Hagree : ∀ x y, TateAlgebraTerm._parent x = A → TateAlgebraTerm._parent y = A →
                          (TateAlgebraElement.term_ge x y ↔ R2 x y)).
  { intros x y Hx Hy. unfold TateAlgebraElement.term_ge, R2.
    by rewrite (cmp_same_parent A x y Hx). }
  destruct (terms_Permutation f) as (_ & HP). fold A in HP.
  assert (HS : StronglySorted R2 (TateAlgebraElement.terms f)).
  { unfold TateAlgebraElement.terms. destruct (TateAlgebraElement.is_zero0 f); [constructor|].
    rewrite (merge_sort_ext TateAlgebraElement.term_ge R2
               (λ t, TateAlgebraTerm._parent t = A) Hagree).
    - apply (StronglySorted_merge_sort R2).
    - apply List.Forall_forall. intros t Ht.
      apply in_map_iff in Ht as ([e c] & <- & _). done. }
  induction HS as [|x l HS IH Hx]; [constructor|].
  apply Forall_cons in HP as [Px Pl]. constructor; [by apply IH|].
  apply List.Forall_forall. intros y Hy.
  apply (Hagree x y Px).
  - by apply (proj1 (List.Forall_forall _ _) Pl).
  - by apply (proj1 (List.Forall_forall _ _) Hx).
Qed.

Lemma leading_term_greatest (f : TateAlgebraElement.t) (lt t : TateAlgebraTerm.t) :
  TateAlgebraElement.leading_term f = Some lt →
  In t (TateAlgebraElement.terms f) →
  TateAlgebraTerm._cmp_ lt t ≠ Lt.
Proof.
  set (A := TateAlgebraElement._parent f).
  pose proof (three_way_cmp A) as W.
  pose proof (terms_StronglySorted f) as Hsorted.
  intros Hlt Ht. unfold TateAlgebraElement.leading_term in Hlt.
  destruct (TateAlgebraElement.is_zero0 f); [done|].
  destruct (terms_Permutation f) as (_ & HP). fold A in HP.
  destruct (TateAlgebraElement.terms f) as [|x l]; [done|].
  injection Hlt as ->. apply StronglySorted_inv in Hsorted as [_ Hx].
  apply Forall_cons in HP as [Px _].
  destruct Ht as [<-|Ht].
  - rewrite (cmp_same_parent A lt lt Px), (tw_refl _ W). done.
  - by apply (proj1 (List.Forall_forall _ _) Hx).
Qed.

Lemma valuation_le_cap (f : TateAlgebraElement.t) :
  vcmp (TateAlgebraElement.valuation f) (cap_prec (TateAlgebraElement._parent f)) ≠ Gt.
Proof.
  unfold TateAlgebraElement.valuation.
  destruct (TateAlgebraElement.is_zero0 f); [by rewrite (tw_refl _ three_way_v)|].
  destruct (TateAlgebraElement.leading_term f);
    [apply vmin_le_r|by rewrite (tw_refl _ three_way_v)].
Qed.

Lemma valuation_le_entry (f : TateAlgebraElement.t) (e : list nat) (c : K) :
  TateAlgebraElement._poly f !! e = Some c →
  vcmp (TateAlgebraElement.valuation f)
       (TateAlgebraTerm.valuation
          {| TateAlgebraTerm._parent := TateAlgebraElement._parent f;
             TateAlgebraTerm._coeff := c;
             TateAlgebraTerm._exponent := e |}) ≠ Gt.
Proof.
  pose proof three_way_v as W.
  intros Hec.
  assert (Hz : TateAlgebraElement.is_zero f None = false).
  { simpl. unfold poly_is_zero. apply bool_decide_eq_false. intros E.
    by rewrite E, lookup_empty in Hec. }
  destruct (leading_term_nonzero f Hz) as (lt & Hlt & _).
  unfold TateAlgebraElement.valuation, TateAlgebraElement.is_zero0.
  rewrite (Hz : poly_is_zero _ = false), Hlt.
  destruct (terms_Permutation f) as (Hp & HP).
  assert (Hin : In (e, c) (map entry (TateAlgebraElement.terms f))).
  { apply list_elem_of_In. rewrite Hp. by apply elem_of_map_to_list. }
  apply in_map_iff in Hin as (t & Het & Ht).
  pose proof (proj1 (List.Forall_forall _ _) HP t Ht) as Pt. simpl in Pt.
  pose proof (leading_term_greatest f lt t Hlt Ht) as Hmax.
  assert (Hv : vcmp (TateAlgebraTerm.valuation lt) (TateAlgebraTerm.valuation t) ≠ Gt).
  { unfold TateAlgebraTerm._cmp_ in Hmax. cbv zeta in Hmax.
    rewrite vcmp_xopp in Hmax. rewrite (tw_opp _ W).
    destruct (vcmp (TateAlgebraTerm.valuation t) (TateAlgebraTerm.valuation lt)); done. }
  replace {| TateAlgebraTerm._parent := TateAlgebraElement._parent f;
             TateAlgebraTerm._coeff := c; TateAlgebraTerm._exponent := e |} with t.
  + apply (tw_le_trans _ W _ (TateAlgebraTerm.valuation lt)); [apply vmin_le_l|done].
  + destruct t as [p c' e']. unfold entry in Het. simpl in *. congruence.
Qed.

(** X6: [terms()] lists every entry of the mapping of the series exactly once,
    each as a term of the algebra of the series, and [coefficients()] has one
    coefficient for each entry. *)
Theorem terms_entries (f : TateAlgebraElement.t) :
  map entry (TateAlgebraElement.terms f) ≡ₚ map_to_list (TateAlgebraElement.dict f)
  ∧ length (TateAlgebraElement.coefficients f) = size (TateAlgebraElement.dict f)
  ∧ Forall (λ t, TateAlgebraTerm._parent t = TateAlgebraElement._parent f)
           (TateAlgebraElement.terms f).
Proof.
  destruct (terms_Permutation f) as [Hp Hf]. split; [done|]. split; [|done].
  unfold TateAlgebraElement.coefficients. rewrite length_map.
  rewrite <- (length_map entry), Hp. apply length_map_to_list.
Qed.

(** X7: [terms()] is sorted from the greatest term to the smallest one: no
    term compares smaller than a term that comes after it.  The leading term
    is the first of them and no term of the series compares greater. *)
Theorem terms_sorted (f : TateAlgebraElement.t) :
  StronglySorted (λ a b, TateAlgebraTerm._cmp_ a b ≠ Lt) (TateAlgebraElement.terms f)
  ∧ TateAlgebraElement.leading_term f = head (TateAlgebraElement.terms f)
  ∧ ∀ lt t, TateAlgebraElement.leading_term f = Some lt →
            In t (TateAlgebraElement.terms f) →
            TateAlgebraTerm._cmp_ lt t ≠ Lt.
Proof.
  split; [apply terms_StronglySorted|]. split; [|apply leading_term_greatest].
  unfold TateAlgebraElement.leading_term, TateAlgebraElement.terms.
  destruct (TateAlgebraElement.is_zero0 f); [done|].
  by destruct (merge_sort _ _).
Qed.

(** X8: the valuation of a series is at most the precision cap of its algebra
    and at most the valuation of each of its terms. *)
Theorem valuation_lower_bound (f : TateAlgebraElement.t) :
  vcmp (TateAlgebraElement.valuation f) (cap_prec (TateAlgebraElement._parent f)) ≠ Gt
  ∧ ∀ e c, TateAlgebraElement._poly f !! e = Some c →
      vcmp (TateAlgebraElement.valuation f)
           (TateAlgebraTerm.valuation
              {| TateAlgebraTerm._parent := TateAlgebraElement._parent f;
                 TateAlgebraTerm._coeff := c;
                 TateAlgebraTerm._exponent := e |}) ≠ Gt.
Proof. split; [apply valuation_le_cap|apply valuation_le_entry]. Qed.
End Terms.

(** ** Sums, truncation, shifts *)

Section SeriesArithmetic.
Context `{BaseRing}.

Lemma poly_map_reduced (g : K → K) (p : gmap (list nat) K) (e : list nat) (c : K) :
  poly_map g p !! e = Some c → Kis_zero c = false ∧ ∃ c0, p !! e = Some c0 ∧ c = g c0.
Proof.
  rewrite lookup_poly_map. destruct (p !! e) as [c0|]; simpl; [|done].
  unfold nz. destruct (Kis_zero (g c0)) eqn:E; [done|].
  intros [= <-]. eauto.
Qed.

(** X9: [a + b] and [a - b] live in the algebra of [a], both at the precision
    [min(prec(a), prec(b))], and their mappings have entries only at exponents
    where [a] or [b] has one. *)
Theorem add_sub_precision (a b : TateAlgebraElement.t) :
  let s := TateAlgebraElement._add_ a b in
  let d := TateAlgebraElement._sub_ a b in
  TateAlgebraElement._parent s = TateAlgebraElement._parent a
  ∧ TateAlgebraElement._parent d = TateAlgebraElement._parent a
  ∧ TateAlgebraElement._prec s = TateAlgebraElement._prec d
  ∧ vcmp (TateAlgebraElement._prec s) (TateAlgebraElement._prec a) ≠ Gt
  ∧ vcmp (TateAlgebraElement._prec s) (TateAlgebraElement._prec b) ≠ Gt
  ∧ (TateAlgebraElement._prec s = TateAlgebraElement._prec a
     ∨ TateAlgebraElement._prec s = TateAlgebraElement._prec b)
  ∧ ∀ e, (is_Some (TateAlgebraElement._poly s !! e)
          ∨ is_Some (TateAlgebraElement._poly d !! e)) →
         is_Some (TateAlgebraElement._poly a !! e)
         ∨ is_Some (TateAlgebraElement._poly b !! e).
Proof.
  intros s d. unfold s, d, TateAlgebraElement._add_, TateAlgebraElement._sub_,
    TateAlgebraElement.precision_absolute, TateAlgebraElement.polynomial.
  rewrite !make_prec, !make_parent.
  split; [done|]. split; [done|]. split; [done|].
  split; [apply vmin_le_l|]. split; [apply vmin_le_r|].
  split; [unfold xmin; destruct (vltb _ _); auto|].
  intros e [[c Hc]|[c Hc]]; unfold TateAlgebraElement.make in Hc; simpl in Hc;
    apply poly_map_reduced in Hc as (_ & c0 & Hc0 & _).
  - rewrite lookup_poly_add in Hc0.
    destruct (TateAlgebraElement._poly a !! e), (TateAlgebraElement._poly b !! e);
      simpl in Hc0; eauto; done.
  - rewrite lookup_poly_sub in Hc0.
    destruct (TateAlgebraElement._poly a !! e), (TateAlgebraElement._poly b !! e);
      simpl in Hc0; eauto; done.
Qed.

(** X10: [f.add_bigoh(n)] has precision [min(prec(f), n)], which is at most
    [n]; over a base ring whose truncation at that precision is idempotent,
    truncating a second time at [n] changes nothing. *)
Theorem add_bigoh_idempotent (f : TateAlgebraElement.t) (n : ext Qc) :
  let m := vmin (TateAlgebraElement._prec f) n in
  (∀ c, Kadd_bigoh (Kadd_bigoh c m) m = Kadd_bigoh c m) →
  ∃ g, TateAlgebraElement.add_bigoh f n = Ok g
       ∧ TateAlgebraElement._prec g = m
       ∧ vcmp (TateAlgebraElement._prec g) n ≠ Gt
       ∧ TateAlgebraElement.add_bigoh g n = Ok g.
Proof.
  intros m Hidem. rewrite add_bigoh_ok. fold m. eexists. split; [reflexivity|].
  split; [done|]. split; [apply vmin_le_r|].
  rewrite add_bigoh_ok. cbn [TateAlgebraElement._parent TateAlgebraElement._poly
    TateAlgebraElement._prec].
  assert (Hm : vmin m n = m) by apply vmin_vmin_r. rewrite Hm. do 2 f_equal.
  apply map_eq. intros e. rewrite !lookup_poly_map.
  destruct (TateAlgebraElement._poly f !! e) as [c|]; simpl; [|done].
  unfold nz. destruct (Kis_zero (Kadd_bigoh c m)) eqn:E; simpl; [done|].
  by rewrite Hidem, E.
Qed.

(** X11: [f.is_zero(p)] holds exactly when [p] is at most the precision cap
    of the algebra and at most the valuation of every term of [f]. *)
Theorem is_zero_at_precision (f : TateAlgebraElement.t) (p : ext Qc) :
  TateAlgebraElement.is_zero f (Some p) = true ↔
  vcmp p (cap_prec (TateAlgebraElement._parent f)) ≠ Gt
  ∧ ∀ e c, TateAlgebraElement._poly f !! e = Some c →
      vcmp p (TateAlgebraTerm.valuation
                {| TateAlgebraTerm._parent := TateAlgebraElement._parent f;
                   TateAlgebraTerm._coeff := c;
                   TateAlgebraTerm._exponent := e |}) ≠ Gt.
Proof.
  pose proof three_way_v as W.
  cbn [TateAlgebraElement.is_zero]. rewrite negb_true_iff, vltb_false.
  pose proof (valuation_le_cap f) as Hcap.
  pose proof (valuation_le_entry f) as Hterms. split.
  - intros Hp. split; [by apply (tw_le_trans _ W _ _ _ Hp)|].
    intros e c Hec. apply (tw_le_trans _ W _ _ _ Hp). by apply Hterms.
  - intros [Hp Hall]. unfold TateAlgebraElement.valuation.
    destruct (TateAlgebraElement.is_zero0 f) eqn:Hz; [done|].
    destruct (leading_term_nonzero f Hz) as (lt & Hlt & HP & Hl). rewrite Hlt.
    apply vmin_glb; [|done]. specialize (Hall _ _ Hl).
    destruct lt as [pa c e]. simpl in *. by subst pa.
Qed.

(** X12: over a field, [(f << n) >> n] is [f] again when the shifts of the
    base ring undo each other on the coefficients of [f] and leave them
    non-zero: both shifts return, and the second one returns [f]. *)
Theorem lshift_rshift (f : TateAlgebraElement.t) (n : Z) :
  is_field = true →
  (∀ e c, TateAlgebraElement._poly f !! e = Some c →
          Kis_zero c = false ∧ Kis_zero (Klshift c n) = false
          ∧ Klshift (Klshift c n) (- n) = c) →
  ∃ g, TateAlgebraElement.__lshift__ f n = Ok g
       ∧ TateAlgebraElement.__rshift__ g n = Ok f.
Proof.
  intros Hf Hc. destruct f as [A p q].
  unfold TateAlgebraElement.__rshift__, TateAlgebraElement.__lshift__,
    TateAlgebraElement._lshift. rewrite Hf.
  eexists. split; [reflexivity|]. f_equal.
  unfold TateAlgebraElement.make. cbn [TateAlgebraElement._parent TateAlgebraElement._poly
    TateAlgebraElement._prec] in *.
  rewrite !vmin_PInf_l, xadd_shift_back. f_equal.
  apply map_eq. intros e. rewrite !lookup_poly_map.
  destruct (p !! e) as [c|] eqn:E; simpl; [|done].
  destruct (Hc e c E) as (Hz & Hz' & Hback).
  unfold nz at 2. rewrite Hz'. simpl. unfold nz. by rewrite Hback, Hz.
Qed.

(** X13: converting a series of another algebra raises "Variable names do
    not match" exactly when the two algebras are distinct objects with
    different variable names. *)
Theorem init_names_mismatch (parent : TateAlgebra) (x : TateAlgebraElement.t)
    (prec : option (ext Qc)) (reduce : bool) :
  TateAlgebraElement.__init__ parent (TateAlgebraElement.OfElement x) prec reduce
    = Raise (TypeError "Variable names do not match")
  ↔ parent_is (TateAlgebraElement._parent x) parent = false
    ∧ variable_names (TateAlgebraElement._parent x) ≠ variable_names parent.
Proof.
  unfold TateAlgebraElement.__init__, TateAlgebraElement.init_source,
    TateAlgebraElement.names_eq.
  destruct (parent_is _ parent); simpl; [split; [done|by intros [? _]]|].
  destruct (bool_decide_reflect (variable_names (TateAlgebraElement._parent x)
                                 = variable_names parent)) as [E|E].
  - destruct (TateAlgebraElement.bigger_domain _ _ _); simpl;
      (split; [done|by intros [_ ?]]).
  - simpl. split; done.
Qed.
End SeriesArithmetic.

Section Conversions.
Context `{BaseRing}.

(** X14: the opposite of a series has the same algebra and the same
    precision, and [-(-f)] is [f] again when the opposite of the base ring is
    an involution on the coefficients of [f] and leaves them non-zero. *)
Theorem neg_involutive (f : TateAlgebraElement.t) :
  (∀ e c, TateAlgebraElement._poly f !! e = Some c →
          Kis_zero c = false ∧ Kis_zero (Kopp c) = false ∧ Kopp (Kopp c) = c) →
  TateAlgebraElement._parent (TateAlgebraElement._neg_ f) = TateAlgebraElement._parent f
  ∧ TateAlgebraElement._prec (TateAlgebraElement._neg_ f) = TateAlgebraElement._prec f
  ∧ TateAlgebraElement._neg_ (TateAlgebraElement._neg_ f) = f.
Proof.
  intros Hc. destruct f as [A p q].
  unfold TateAlgebraElement._neg_, TateAlgebraElement.make.
  cbn [TateAlgebraElement._parent TateAlgebraElement._poly TateAlgebraElement._prec] in *.
  rewrite !vmin_PInf_l. split; [done|]. split; [done|]. f_equal.
  apply map_eq. intros e. rewrite !lookup_poly_map.
  destruct (p !! e) as [c|] eqn:E; simpl; [|done].
  destruct (Hc e c E) as (Hz & Hz' & Hback).
  unfold nz at 2. rewrite Hz'. simpl. unfold nz. by rewrite Hback, Hz.
Qed.

(** X15: converting a term of an algebra with other variable names never
    raises "Variable names do not match": no branch assigns [_poly], and the
    reduction of the coefficients fails on it.  That is the only way the
    conversion of a term ends there. *)
Theorem init_term_names_mismatch (parent : TateAlgebra) (x : TateAlgebraTerm.t)
    (prec : option (ext Qc)) :
  TateAlgebraElement.__init__ parent (TateAlgebraElement.OfTerm x) prec true
    = Raise (AttributeError "_poly is not assigned")
  ↔ variable_names (TateAlgebraTerm._parent x) ≠ variable_names parent.
Proof.
  unfold TateAlgebraElement.__init__, TateAlgebraElement.init_source,
    TateAlgebraElement.names_eq.
  destruct (bool_decide_reflect (variable_names (TateAlgebraTerm._parent x)
                                 = variable_names parent)) as [E|E].
  - destruct (TateAlgebraElement.bigger_domain _ _ _); simpl; (split; [done|]);
      intros Hne; by destruct Hne.
  - simpl. split; done.
Qed.
End Conversions.

(** ** Division: what the loop keeps, and when it stops *)

Section Division.
Context `{BaseRing}.

(** A term of the algebra is converted to a series of precision [Infinity]. *)
Lemma of_term_returns (A : TateAlgebra) (t : TateAlgebraTerm.t) :
  TateAlgebraTerm._parent t = A →
  TateAlgebraElement.of_term A t
  = Ok {| TateAlgebraElement._parent := A;
          TateAlgebraElement._poly :=
            poly_map (λ c, Kadd_bigoh c PInf)
              (poly_monomial (TateAlgebraTerm._coeff t) (TateAlgebraTerm._exponent t));
          TateAlgebraElement._prec := PInf |}.
Proof.
  intros <-. unfold TateAlgebraElement.of_term, TateAlgebraElement.__init__,
    TateAlgebraElement.init_source, TateAlgebraElement.names_eq.
  rewrite bool_decide_eq_true_2 by done. by rewrite bigger_domain_same.
Qed.

Lemma quo_rem_loop_keeps (fuel : nat) (A : TateAlgebra)
    (divisors : list TateAlgebraElement.t) ltds integral f q r q' r' :
  TateAlgebraElement._parent f = A →
  loop_keeps A divisors q r →
  TateAlgebraElement.quo_rem_loop fuel A divisors ltds integral f q r = Ok (q', r') →
  loop_keeps A divisors q' r'.
Proof.
  revert f q r. induction fuel as [|fuel IH]; intros f q r Hf Hk;
    cbn [TateAlgebraElement.quo_rem_loop];
    destruct (TateAlgebraElement.is_zero f None) eqn:Hz.
  { by intros [= <- <-]. }
  { done. }
  { by intros [= <- <-]. }
  destruct (leading_term_nonzero f Hz) as (lt & Hlt & HPlt & _). rewrite Hlt.
  destruct (TateAlgebraElement.first_divisor lt integral 0 ltds) as [[[i ltd]|]|e|];
    cbn [mbind result_bind]; try done.
  - destruct (TateAlgebraTerm.__floordiv__ lt ltd) as [factor|e|] eqn:Hfd;
      cbn [mbind result_bind]; try done.
    destruct (TateAlgebraElement.of_term A factor) as [factor'|e|] eqn:Hof;
      cbn [mbind result_bind]; try done.
    destruct (divisors !! i) as [d|] eqn:Hd; [|done].
    destruct (q !! i) as [qi|] eqn:Hqi; [|done].
    intros Hloop. refine (IH _ _ _ _ _ Hloop); [exact Hf|]. clear Hloop.
    assert (Hprec : TateAlgebraElement._prec factor' = PInf).
    { unfold TateAlgebraElement.of_term, TateAlgebraElement.__init__ in Hof.
      destruct (TateAlgebraElement.init_source A (TateAlgebraElement.OfTerm factor))
        as [[po pr]|?|] eqn:Hs; cbn [mbind result_bind] in Hof; try done.
      unfold TateAlgebraElement.init_source in Hs.
      destruct (TateAlgebraElement.names_eq _ _) in Hs;
        [destruct (TateAlgebraElement.bigger_domain _ _ _) in Hs; [done|]|];
        injection Hs as <- <-; unfold TateAlgebraElement.init_finish in Hof;
        [injection Hof as <-|]; done. }
    destruct Hk as (Hlen & Hq & Hr). split; [by rewrite length_insert|].
    split; [|done]. intros j d' qj Hd' Hqj.
    destruct (decide (i = j)) as [<-|Hne].
    + rewrite list_lookup_insert_eq in Hqj by (by apply lookup_lt_Some in Hqi).
      injection Hqj as <-. destruct (Hq i d' qi Hd' Hqi) as [Hp Hpr].
      unfold TateAlgebraElement._add_, TateAlgebraElement.precision_absolute.
      rewrite make_parent, make_prec, Hprec, vmin_PInf_r. done.
    + rewrite list_lookup_insert_ne in Hqj by done. by apply (Hq j).
  - destruct (TateAlgebraElement.of_term A lt) as [lt'|e|] eqn:Hof;
      cbn [mbind result_bind]; try done.
    intros Hloop. refine (IH _ _ _ _ _ Hloop); [exact Hf|]. clear Hloop.
    rewrite (of_term_returns A lt) in Hof by (by rewrite HPlt). injection Hof as <-.
    destruct Hk as (Hlen & Hq & Hr & Hpr). split; [done|]. split; [done|].
    unfold TateAlgebraElement._add_, TateAlgebraElement.precision_absolute.
    rewrite make_parent, make_prec. cbn [TateAlgebraElement._prec].
    by rewrite vmin_PInf_r.
Qed.

(** X16: what [quo_rem] returns, when it returns: one quotient for each
    divisor, each in the algebra of the dividend at precision
    [cap - valuation(divisor)], and a remainder in that algebra at precision
    [cap], the precision cap of the algebra. *)
Theorem quo_rem_keeps (fuel : nat) (f : TateAlgebraElement.t)
    (divisors : TateAlgebraElement.divisors_arg) (integral : bool) q r :
  TateAlgebraElement.quo_rem fuel f divisors integral = Ok (q, r) →
  let A := TateAlgebraElement._parent f in
  length q = length (TateAlgebraElement.as_list divisors)
  ∧ (∀ i d qi, TateAlgebraElement.as_list divisors !! i = Some d → q !! i = Some qi →
       TateAlgebraElement._parent qi = A
       ∧ TateAlgebraElement._prec qi
         = xsub (cap_prec A) (TateAlgebraElement.valuation d))
  ∧ TateAlgebraElement._parent r = A
  ∧ TateAlgebraElement._prec r = cap_prec A.
Proof.
  intros Hloop A. unfold TateAlgebraElement.quo_rem in Hloop.
  rewrite add_bigoh_ok in Hloop. cbn [mbind result_bind] in Hloop. fold A in Hloop.
  apply quo_rem_loop_keeps in Hloop; [done|done|].
  split; [by rewrite length_map|]. split; [|by rewrite make_parent, make_prec].
  intros i d qi Hd Hqi. rewrite lookup_map, Hd in Hqi. injection Hqi as <-.
  by rewrite make_parent, make_prec.
Qed.

(** X17: dividing the zero series returns at once, whatever the divisors:
    one zero quotient for each divisor and the remainder zero. *)
Theorem quo_rem_of_zero (fuel : nat) (f : TateAlgebraElement.t)
    (divisors : TateAlgebraElement.divisors_arg) (integral : bool) :
  TateAlgebraElement.is_zero f None = true →
  ∃ q r, TateAlgebraElement.quo_rem fuel f divisors integral = Ok (q, r)
         ∧ length q = length (TateAlgebraElement.as_list divisors)
         ∧ Forall (λ qi, TateAlgebraElement.is_zero qi None = true) q
         ∧ TateAlgebraElement.is_zero r None = true.
Proof.
  intros Hz. cbn [TateAlgebraElement.is_zero] in Hz. unfold poly_is_zero in Hz.
  apply bool_decide_eq_true in Hz.
  unfold TateAlgebraElement.quo_rem. rewrite add_bigoh_ok. cbn [mbind result_bind].
  rewrite Hz. unfold poly_map at 1. rewrite omap_empty.
  assert (Hzero : ∀ A p, TateAlgebraElement.is_zero
            (TateAlgebraElement.make A (∅ : gmap (list nat) K) p true) None = true).
  { intros A p. cbn [TateAlgebraElement.is_zero TateAlgebraElement.make
      TateAlgebraElement._poly]. unfold poly_map. rewrite omap_empty.
    by apply bool_decide_eq_true. }
  eexists _, _. split.
  - destruct fuel; cbn [TateAlgebraElement.quo_rem_loop TateAlgebraElement.is_zero
      TateAlgebraElement._poly]; unfold poly_is_zero;
      rewrite bool_decide_eq_true_2 by done; reflexivity.
  - split; [by rewrite length_map|]. split; [|apply Hzero].
    apply List.Forall_forall. intros qi Hqi.
    apply in_map_iff in Hqi as (d & <- & _). apply Hzero.
Qed.

Lemma size_le_of_lookup (p q : gmap (list nat) K) :
  (∀ e, is_Some (p !! e) → is_Some (q !! e)) → (size p ≤ size q)%nat.
Proof.
  intros Hsub. rewrite <- !size_dom. apply subseteq_size.
  intros e. rewrite !elem_of_dom. apply Hsub.
Qed.

Lemma monomial_series_lookup (g : K → K) (c : K) (e e' : list nat) :
  Kis_zero c = false → g c = c →
  poly_map g (poly_monomial c e) !! e' = if decide (e = e') then Some c else None.
Proof.
  intros Hnz Hg. rewrite lookup_poly_map, lookup_poly_monomial.
  destruct (decide (e = e')); [|done].
  unfold nz. rewrite Hnz. simpl. by rewrite Hg, Hnz.
Qed.

(** With no divisor the loop of [quo_rem] only moves terms: the invariant
    below holds of the running dividend and of the remainder, for the
    mapping [p0] of the dividend truncated at the cap. *)
Section NoDivisors.
Variables (A : TateAlgebra) (m : ext Qc) (p0 : gmap (list nat) K).
Hypothesis sub_self : ∀ c, Kis_zero (Ksub c c) = true.
Hypothesis stable : ∀ c p q,
  vcmp p q ≠ Gt → Kis_zero (Kadd_bigoh c p) = false →
  Kadd_bigoh (Kadd_bigoh c p) q = Kadd_bigoh c p.
Hypothesis m_le_cap : vcmp m (cap_prec A) ≠ Gt.
Hypothesis truncated : ∀ e c, p0 !! e = Some c →
  Kis_zero c = false ∧ ∃ c', c = Kadd_bigoh c' m.

Lemma truncated_stable (e : list nat) (c : K) (q : ext Qc) :
  p0 !! e = Some c → vcmp m q ≠ Gt → nz (Kadd_bigoh c q) = Some c.
Proof.
  intros Hc Hq. destruct (truncated e c Hc) as (Hnz & c' & ->).
  rewrite (stable c' m q Hq Hnz). unfold nz. by rewrite Hnz.
Qed.

(** The terms of [p0] are split between the running dividend [f] and the
    remainder [r]. *)
Definition split_between (f r : TateAlgebraElement.t) : Prop :=
  TateAlgebraElement._parent f = A ∧ TateAlgebraElement._prec f = m
  ∧ TateAlgebraElement._parent r = A ∧ TateAlgebraElement._prec r = cap_prec A
  ∧ ∀ e, (TateAlgebraElement._poly r !! e = None
          ∧ TateAlgebraElement._poly f !! e = p0 !! e)
         ∨ (TateAlgebraElement._poly f !! e = None
            ∧ TateAlgebraElement._poly r !! e = p0 !! e).

Lemma split_step (f r : TateAlgebraElement.t) (lt : TateAlgebraTerm.t) :
  split_between f r →
  TateAlgebraTerm._parent lt = A →
  TateAlgebraElement._poly f !! TateAlgebraTerm._exponent lt
    = Some (TateAlgebraTerm._coeff lt) →
  ∃ lt', TateAlgebraElement.of_term A lt = Ok lt'
         ∧ split_between (TateAlgebraElement._sub_ f lt') (TateAlgebraElement._add_ r lt')
         ∧ TateAlgebraElement._poly (TateAlgebraElement._sub_ f lt')
           = delete (TateAlgebraTerm._exponent lt) (TateAlgebraElement._poly f).
Proof.
  intros (HPf & Hprf & HPr & Hprr & Hsplit) HPlt Hl.
  set (e0 := TateAlgebraTerm._exponent lt) in *.
  set (c0 := TateAlgebraTerm._coeff lt) in *.
  assert (H0 : TateAlgebraElement._poly r !! e0 = None ∧ p0 !! e0 = Some c0).
  { destruct (Hsplit e0) as [[Hr Hf]|[Hf _]]; [|congruence].
    split; [done|]. by rewrite <- Hf. }
  destruct H0 as [Hr0 Hp0].
  destruct (truncated e0 c0 Hp0) as [Hnz _].
  assert (Hinf : Kadd_bigoh c0 PInf = c0).
  { pose proof (truncated_stable e0 c0 PInf Hp0 (vcmp_PInf_r m)) as E.
    unfold nz in E. destruct (Kis_zero (Kadd_bigoh c0 PInf)); congruence. }
  rewrite (of_term_returns A lt HPlt). fold e0 c0. eexists. split; [reflexivity|].
  assert (Hsub : ∀ e, TateAlgebraElement._poly
                   (TateAlgebraElement._sub_ f
                      {| TateAlgebraElement._parent := A;
                         TateAlgebraElement._poly :=
                           poly_map (λ c, Kadd_bigoh c PInf) (poly_monomial c0 e0);
                         TateAlgebraElement._prec := PInf |}) !! e
                 = delete e0 (TateAlgebraElement._poly f) !! e).
  { intros e. unfold TateAlgebraElement._sub_, TateAlgebraElement.make,
      TateAlgebraElement.polynomial, TateAlgebraElement.precision_absolute.
    cbn [TateAlgebraElement._poly TateAlgebraElement._prec].
    rewrite lookup_poly_map, lookup_poly_sub,
      (monomial_series_lookup _ _ _ _ Hnz Hinf).
    destruct (decide (e0 = e)) as [<-|Hne].
    - rewrite Hl, lookup_delete_eq. unfold nz. by rewrite sub_self.
    - rewrite lookup_delete_ne by done.
      destruct (TateAlgebraElement._poly f !! e) as [x|] eqn:Hx; [|done].
      cbn [mbind option_bind]. rewrite Hprf, vmin_PInf_r, vmin_PInf_l.
      apply (truncated_stable e); [|by rewrite (tw_refl _ three_way_v)].
      destruct (Hsplit e) as [[_ Hf]|[Hf _]]; congruence. }
  assert (Hadd : ∀ e, TateAlgebraElement._poly
                   (TateAlgebraElement._add_ r
                      {| TateAlgebraElement._parent := A;
                         TateAlgebraElement._poly :=
                           poly_map (λ c, Kadd_bigoh c PInf) (poly_monomial c0 e0);
                         TateAlgebraElement._prec := PInf |}) !! e
                 = <[ e0 := c0 ]> (TateAlgebraElement._poly r) !! e).
  { intros e. unfold TateAlgebraElement._add_, TateAlgebraElement.make,
      TateAlgebraElement.polynomial, TateAlgebraElement.precision_absolute.
    cbn [TateAlgebraElement._poly TateAlgebraElement._prec].
    rewrite lookup_poly_map, lookup_poly_add,
      (monomial_series_lookup _ _ _ _ Hnz Hinf).
    rewrite Hprr, vmin_PInf_r, vmin_PInf_l.
    destruct (decide (e0 = e)) as [<-|Hne].
    - rewrite Hr0, lookup_insert_eq. cbn [union_with option_union_with mbind option_bind].
      by apply (truncated_stable e0).
    - rewrite lookup_insert_ne by done.
      destruct (TateAlgebraElement._poly r !! e) as [x|] eqn:Hx; [|done].
      cbn [union_with option_union_with mbind option_bind].
      apply (truncated_stable e); [|done].
      destruct (Hsplit e) as [[Hr _]|[_ Hr]]; congruence. }
  split; [|by apply map_eq].
  split; [exact HPf|]. split.
  { unfold TateAlgebraElement._sub_, TateAlgebraElement.precision_absolute.
    rewrite make_prec. cbn [TateAlgebraElement._prec]. by rewrite Hprf, vmin_PInf_r. }
  split; [exact HPr|]. split.
  { unfold TateAlgebraElement._add_, TateAlgebraElement.precision_absolute.
    rewrite make_prec. cbn [TateAlgebraElement._prec]. by rewrite Hprr, vmin_PInf_r. }
  intros e. rewrite Hsub, Hadd.
  destruct (decide (e0 = e)) as [<-|Hne].
  - right. by rewrite lookup_delete_eq, lookup_insert_eq.
  - rewrite lookup_delete_ne, lookup_insert_ne by done. apply Hsplit.
Qed.

Lemma quo_rem_loop_no_divisors (fuel : nat) (integral : bool)
    (f r : TateAlgebraElement.t) :
  split_between f r →
  (size (TateAlgebraElement._poly f) ≤ fuel)%nat →
  ∃ r', TateAlgebraElement.quo_rem_loop fuel A [] [] integral f [] r = Ok ([], r')
        ∧ TateAlgebraElement._parent r' = A
        ∧ TateAlgebraElement._prec r' = cap_prec A
        ∧ TateAlgebraElement._poly r' = p0.
Proof.
  revert f r. induction fuel as [|fuel IH]; intros f r Hsplit Hsize;
    cbn [TateAlgebraElement.quo_rem_loop];
    destruct (TateAlgebraElement.is_zero f None) eqn:Hz.
  1, 3: destruct Hsplit as (_ & _ & HPr & Hprr & Hsplit);
    exists r; split; [done|]; split; [done|]; split; [done|];
    cbn [TateAlgebraElement.is_zero] in Hz; unfold poly_is_zero in Hz;
    apply bool_decide_eq_true in Hz; apply map_eq; intros e;
    destruct (Hsplit e) as [[Hr Hf]|[_ Hr]]; [|done];
    by rewrite Hr, <- Hf, Hz, lookup_empty.
  - exfalso. cbn [TateAlgebraElement.is_zero] in Hz. unfold poly_is_zero in Hz.
    apply bool_decide_eq_false in Hz. apply Hz, map_size_empty_iff. lia.
  - destruct (leading_term_nonzero f Hz) as (lt & Hlt & HPlt & Hl). rewrite Hlt.
    cbn [TateAlgebraElement.first_divisor mbind result_bind].
    destruct (split_step f r lt Hsplit) as (lt' & -> & Hsplit' & Hpoly);
      [by rewrite HPlt; destruct Hsplit as [-> _]|exact Hl|].
    cbn [mbind result_bind]. apply IH; [exact Hsplit'|].
    rewrite Hpoly, map_size_delete, Hl. lia.
Qed.
End NoDivisors.

(** X18: with an empty list of divisors [quo_rem] returns within as many
    rounds as the dividend has terms, with no quotient and with all the
    terms of the dividend in the remainder: the remainder is in the algebra
    of the dividend at precision [cap], and its mapping is that of the
    dividend truncated at [cap].  The base ring is one where [c - c] is zero
    and where a non-zero truncation of a coefficient is left unchanged by a
    truncation at the same or a greater precision. *)
Theorem quo_rem_no_divisors (fuel : nat) (f : TateAlgebraElement.t) (integral : bool) :
  let A := TateAlgebraElement._parent f in
  (∀ c, Kis_zero (Ksub c c) = true) →
  (∀ c p q, vcmp p q ≠ Gt → Kis_zero (Kadd_bigoh c p) = false →
            Kadd_bigoh (Kadd_bigoh c p) q = Kadd_bigoh c p) →
  (size (TateAlgebraElement._poly f) ≤ fuel)%nat →
  ∃ f0 r,
    TateAlgebraElement.add_bigoh f (cap_prec A) = Ok f0
    ∧ TateAlgebraElement.quo_rem fuel f (TateAlgebraElement.Several []) integral
      = Ok ([], r)
    ∧ TateAlgebraElement._parent r = A
    ∧ TateAlgebraElement._prec r = cap_prec A
    ∧ TateAlgebraElement._poly r = TateAlgebraElement._poly f0.
Proof.
  intros A Hsub Hstable Hsize.
  set (m := vmin (TateAlgebraElement._prec f) (cap_prec A)).
  set (p0 := poly_map (λ c, Kadd_bigoh c m) (TateAlgebraElement._poly f)).
  set (f0 := {| TateAlgebraElement._parent := A; TateAlgebraElement._poly := p0;
                TateAlgebraElement._prec := m |}).
  destruct (quo_rem_loop_no_divisors A m p0 Hsub Hstable) with (fuel := fuel)
    (integral := integral) (f := f0)
    (r := TateAlgebraElement.make A ∅ (cap_prec A) true)
    as (r' & Hloop & HP & Hprec & Hpoly).
  - apply vmin_le_r.
  - intros e c Hc. apply poly_map_reduced in Hc as (Hnz & c' & _ & ->). eauto.
  - split; [done|]. split; [done|]. split; [done|]. split; [apply make_prec|].
    intros e. left. split; [|done].
    unfold TateAlgebraElement.make. cbn [TateAlgebraElement._poly].
    by rewrite lookup_poly_map, lookup_empty.
  - cbn [TateAlgebraElement._poly]. etrans; [|exact Hsize].
    apply size_le_of_lookup. intros e [c Hc].
    apply poly_map_reduced in Hc as (_ & c0 & Hc0 & _). eauto.
  - exists f0, r'. split; [apply add_bigoh_ok|]. split; [|done].
    unfold TateAlgebraElement.quo_rem. rewrite add_bigoh_ok. exact Hloop.
Qed.

(** X19: [f % divisors] and [f // divisors] are the two halves of
    [f.quo_rem(divisors)]: when [quo_rem] returns [(q, r)], [%] returns [r],
    [//] with a list returns [q], and [//] with one series returns the only
    element of [q]. *)
Theorem mod_floordiv_quo_rem (fuel : nat) (f : TateAlgebraElement.t)
    (divisors : TateAlgebraElement.divisors_arg) q r :
  TateAlgebraElement.quo_rem fuel f divisors false = Ok (q, r) →
  TateAlgebraElement.__mod__ fuel f divisors = Ok r
  ∧ match divisors with
    | TateAlgebraElement.Several _ =>
        TateAlgebraElement.__floordiv__ fuel f divisors
        = Ok (TateAlgebraElement.Quotients q)
    | TateAlgebraElement.Single _ =>
        ∃ q0, q = [q0]
              ∧ TateAlgebraElement.__floordiv__ fuel f divisors
                = Ok (TateAlgebraElement.Quotient q0)
    end.
Proof.
  intros Hqr. split.
  - unfold TateAlgebraElement.__mod__.
    replace (TateAlgebraElement.quo_rem fuel f
               (TateAlgebraElement.Several (TateAlgebraElement.as_list divisors)) false)
      with (TateAlgebraElement.quo_rem fuel f divisors false) by (by destruct divisors).
    by rewrite Hqr.
  - unfold TateAlgebraElement.__floordiv__. rewrite Hqr. cbn [mbind result_bind].
    destruct divisors as [ds|d]; [reflexivity|].
    assert (Hlen : length q = 1%nat).
    { unfold TateAlgebraElement.quo_rem in Hqr.
      rewrite add_bigoh_ok in Hqr. cbn [mbind result_bind] in Hqr.
      apply quo_rem_loop_keeps in Hqr; [by destruct Hqr as [-> _]|done|].
      split; [by rewrite length_map|]. split; [|by rewrite make_parent, make_prec].
      intros i d' qi Hd Hqi. rewrite lookup_map, Hd in Hqi. injection Hqi as <-.
      by rewrite make_parent, make_prec. }
    destruct q as [|q0 [|q1 q]]; try done. exists q0. split; reflexivity.
Qed.
End Division.

(** ** S-polynomials *)

Section SPolynomials.
Context `{BaseRing}.

(** X20: [Spoly] raises "Cannot compute the S-polynomial of zero" exactly
    when one of the two series is zero; whatever else goes wrong is reported
    by another error. *)
Theorem Spoly_of_zero (f g : TateAlgebraElement.t) :
  TateAlgebraElement.Spoly f g
    = Raise (ValueError "Cannot compute the S-polynomial of zero")
  ↔ TateAlgebraElement.is_zero f None = true
    ∨ TateAlgebraElement.is_zero g None = true.
Proof.
  unfold TateAlgebraElement.Spoly.
  destruct (TateAlgebraElement.is_zero f None) eqn:Hf; cbn [orb]; [split; auto|].
  destruct (TateAlgebraElement.is_zero g None) eqn:Hg; cbn [orb]; [split; auto|].
  split; [|intros [?|?]; done].
  destruct (leading_term_nonzero f Hf) as (st & -> & _).
  destruct (leading_term_nonzero g Hg) as (ot & -> & _).
  assert (Hinit : ∀ A c e, TateAlgebraTerm.__init__ A c e
                           ≠ Raise (ValueError "Cannot compute the S-polynomial of zero")).
  { intros A c e. unfold TateAlgebraTerm.__init__. by destruct (bool_decide _). }
  assert (Hdiv : ∀ a b, TateAlgebraTerm.__floordiv__ a b
                        ≠ Raise (ValueError "Cannot compute the S-polynomial of zero")).
  { intros a b. unfold TateAlgebraTerm.__floordiv__.
    destruct (_ && _); [done|]. destruct (TateAlgebraTerm.some_smaller _ _ _); [done|].
    unfold TateAlgebraTerm.truediv. destruct (Kis_zero _); [done|]. apply Hinit. }
  assert (Hof : ∀ A a, TateAlgebraElement.of_term A a
                       ≠ Raise (ValueError "Cannot compute the S-polynomial of zero")).
  { intros A a. unfold TateAlgebraElement.of_term, TateAlgebraElement.__init__,
      TateAlgebraElement.init_source.
    destruct (TateAlgebraElement.names_eq _ _); [|done].
    by destruct (TateAlgebraElement.bigger_domain _ _ _). }
  intros Hr. exfalso. revert Hr.
  destruct (TateAlgebraTerm.lcm st ot) as [t|e|] eqn:Ht; cbn [mbind result_bind];
    [|intros [= ->]; exact (Hinit _ _ _ Ht)|done].
  destruct (TateAlgebraTerm.__floordiv__ t st) as [a|e|] eqn:Ha; cbn [mbind result_bind];
    [|intros [= ->]; exact (Hdiv _ _ Ha)|done].
  destruct (TateAlgebraElement.of_term (TateAlgebraElement._parent f) a) as [a'|e|] eqn:Ha';
    cbn [mbind result_bind]; [|intros [= ->]; exact (Hof _ _ Ha')|done].
  destruct (TateAlgebraTerm.__floordiv__ t ot) as [b|e|] eqn:Hb; cbn [mbind result_bind];
    [|intros [= ->]; exact (Hdiv _ _ Hb)|done].
  destruct (TateAlgebraElement.of_term (TateAlgebraElement._parent g) b) as [b'|e|] eqn:Hb';
    cbn [mbind result_bind]; [|intros [= ->]; exact (Hof _ _ Hb')|done].
  done.
Qed.

End SPolynomials.

(** ** The properties at terms and series over [Zp(2, 10)] and [Qp(2, 10)] *)

Section Laws.
Import Padic2.
Local Open Scope Q_scope.

Lemma bigoh_idempotent (c : Q) (m : ext Qc) : bigoh (bigoh c m) m = bigoh c m.
Proof.
  unfold bigoh. destruct (vltb (xinj (val2 c)) m) eqn:E; cbv iota.
  - by rewrite E.
  - clear E. by destruct (vltb _ m).
Qed.

Lemma bigoh_stable (c : Q) (p q : ext Qc) :
  vcmp p q ≠ Gt → Qeq_bool (bigoh c p) 0 = false →
  bigoh (bigoh c p) q = bigoh c p.
Proof.
  intros Hpq. unfold bigoh. destruct (vltb (xinj (val2 c)) p) eqn:E; cbv iota; [|done].
  intros _. by rewrite (vltb_le_trans _ p q E Hpq).
Qed.

Lemma sub_self_zero (c : Q) : Qeq_bool (Qred (c - c)) 0 = true.
Proof. apply Qeq_bool_iff. rewrite Qred_correct. ring. Qed.
End Laws.

Section MoreInstances.
Import Padic2 Examples.
Local Open Scope Q_scope.

(** X1 at [2*x] and [3*x] over [Zp(2, 10)]. *)
Lemma term_mul_valuation_witness :
  ∃ p, TateAlgebraTerm._mul_ term_2x term_3x = Ok p
       ∧ nth 0 (TateAlgebraTerm._exponent p) 0%nat = 2%nat
       ∧ TateAlgebraTerm.valuation p
         = xadd (TateAlgebraTerm.valuation term_2x) (TateAlgebraTerm.valuation term_3x).
Proof.
  destruct (term_mul_valuation term_2x term_3x eq_refl eq_refl eq_refl) as [_ Hp].
  destruct Hp as (p & Hp & _ & _ & _ & He & Hval).
  { intros i Hi. assert (i = 0%nat) as -> by (apply Nat.lt_1_r; exact Hi).
    apply Z.leb_le. vm_refl. }
  exists p. split; [exact Hp|]. split; [exact (He 0%nat (Nat.lt_0_succ 0))|].
  apply Hval. vm_refl.
Defined.

(** X2 at [x^2 // (2*x)] over [Qp(2, 10)]. *)
Lemma term_floordiv_exact_witness :
  TateAlgebraTerm.is_divisible_by FieldExamples.term_x_squared FieldExamples.term_2x false
    = true
  ∧ ∃ q, TateAlgebraTerm.__floordiv__ FieldExamples.term_x_squared FieldExamples.term_2x
         = Ok q
         ∧ (nth 0 (TateAlgebraTerm._exponent q) 0 + 1 = 2)%nat.
Proof.
  assert (Hd : TateAlgebraTerm.is_divisible_by FieldExamples.term_x_squared
                 FieldExamples.term_2x false = true) by vm_refl.
  split; [exact Hd|].
  destruct (term_floordiv_exact FieldExamples.term_x_squared FieldExamples.term_2x
              eq_refl eq_refl) as (_ & _ & Hq).
  destruct (Hq Hd eq_refl) as (q & Hfd & _ & _ & _ & He).
  exists q. split; [exact Hfd|exact (He 0%nat (Nat.lt_0_succ 0))].
Defined.

(** X3 at the terms [x^2], [x] and [1] of the disc of log-radius [-1]. *)
Lemma is_divisible_by_preorder_witness :
  TateAlgebraTerm.is_divisible_by small_x_squared small_x_squared true = true
  ∧ (TateAlgebraTerm.is_divisible_by small_x_squared small_x true = true →
     TateAlgebraTerm.is_divisible_by small_x (term Z2 A1 1 0) true = true →
     TateAlgebraTerm.is_divisible_by small_x_squared (term Z2 A1 1 0) true = true).
Proof.
  exact (is_divisible_by_preorder small_x_squared small_x (term Z2 A1 1 0) true eq_refl).
Defined.

(** X4 at [2*x] and [x^2] over [Qp(2, 10)]. *)
Lemma gcd_lcm_divisibility_witness :
  ∃ g l,
    TateAlgebraTerm.gcd FieldExamples.term_2x FieldExamples.term_x_squared = Ok g
    ∧ TateAlgebraTerm.lcm FieldExamples.term_2x FieldExamples.term_x_squared = Ok l
    ∧ eadd (TateAlgebraTerm._exponent g) (TateAlgebraTerm._exponent l) = Ok [3%nat]
    ∧ TateAlgebraTerm.is_divisible_by FieldExamples.term_2x g false = true
    ∧ TateAlgebraTerm.is_divisible_by l FieldExamples.term_x_squared false = true.
Proof.
  destruct (gcd_lcm_divisibility FieldExamples.term_2x FieldExamples.term_x_squared
              eq_refl eq_refl eq_refl) as (g & l & Hg & Hl & He & Hdiv).
  destruct (Hdiv eq_refl) as (H1 & _ & _ & H4).
  exists g, l. split; [exact Hg|]. split; [exact Hl|]. split; [exact He|].
  split; [exact H1|exact H4].
Defined.

(** X5 at the terms [x] and [1] of the disc of log-radius [-1]: they are
    coprime, and their gcd has exponent 0. *)
Lemma is_coprime_with_gcd_witness :
  TateAlgebraTerm.is_coprime_with small_x (term Z2 A1 1 0) = true
  ∧ TateAlgebraTerm.is_coprime_with small_x (term Z2 A1 1 0)
    = TateAlgebraTerm.is_coprime_with (term Z2 A1 1 0) small_x
  ∧ ∃ g, TateAlgebraTerm.gcd small_x (term Z2 A1 1 0) = Ok g
         ∧ nth 0 (TateAlgebraTerm._exponent g) 0%nat = 0%nat.
Proof.
  assert (Hc : TateAlgebraTerm.is_coprime_with small_x (term Z2 A1 1 0) = true)
    by vm_refl.
  destruct (is_coprime_with_gcd small_x (term Z2 A1 1 0) eq_refl eq_refl eq_refl)
    as (Hsym & g & Hg & Hz & _).
  split; [exact Hc|]. split; [exact Hsym|].
  exists g. split; [exact Hg|]. exact (Hz Hc 0%nat (Nat.lt_0_succ 0)).
Defined.

(** X10 at [1 + 2*x] over [Zp(2, 10)], truncated at precision 1. *)
Lemma add_bigoh_idempotent_witness :
  ∃ g, TateAlgebraElement.add_bigoh one_plus_2x (Fin (Qc_of_Z 1)) = Ok g
       ∧ TateAlgebraElement.add_bigoh g (Fin (Qc_of_Z 1)) = Ok g.
Proof.
  destruct (add_bigoh_idempotent one_plus_2x (Fin (Qc_of_Z 1))
              (λ c, bigoh_idempotent c _)) as (g & Hg & _ & _ & Hgg).
  exists g. split; [exact Hg|exact Hgg].
Defined.

(** X12 at [2 + 6*x] over [Qp(2, 10)], shifted by 3. *)
Lemma lshift_rshift_witness :
  ∃ g, TateAlgebraElement.__lshift__ FieldExamples.two_plus_6x 3 = Ok g
       ∧ TateAlgebraElement.__rshift__ g 3 = Ok FieldExamples.two_plus_6x.
Proof.
  apply (lshift_rshift FieldExamples.two_plus_6x 3 eq_refl).
  intros e c Hc. apply elem_of_map_to_list in Hc.
  replace (map_to_list (TateAlgebraElement._poly FieldExamples.two_plus_6x))
    with [([0%nat], 2 : @K Q2); ([1%nat], 6 : @K Q2)] in Hc by (symmetry; vm_refl).
  apply list_elem_of_In in Hc. simpl in Hc.
  destruct Hc as [Hc|[Hc|[]]]; injection Hc as _ <-; repeat split; vm_refl.
Defined.

(** X14 at [1 + 2*x] over [Zp(2, 10)]. *)
Lemma neg_involutive_witness :
  TateAlgebraElement._prec (TateAlgebraElement._neg_ one_plus_2x)
    = TateAlgebraElement._prec one_plus_2x
  ∧ TateAlgebraElement._neg_ (TateAlgebraElement._neg_ one_plus_2x) = one_plus_2x.
Proof.
  apply (neg_involutive one_plus_2x).
  intros e c Hc. apply elem_of_map_to_list in Hc.
  replace (map_to_list (TateAlgebraElement._poly one_plus_2x))
    with [([0%nat], 1 : @K Z2); ([1%nat], 2 : @K Z2)] in Hc by (symmetry; vm_refl).
  apply list_elem_of_In in Hc. simpl in Hc.
  destruct Hc as [Hc|[Hc|[]]]; injection Hc as _ <-; repeat split; vm_refl.
Defined.

(** X16 at [x] divided by [x] over [Zp(2, 10)]. *)
Lemma quo_rem_keeps_witness :
  ∃ q r, TateAlgebraElement.quo_rem 1 x (TateAlgebraElement.Single x) false = Ok (q, r)
         ∧ length q = 1%nat
         ∧ TateAlgebraElement._prec r = cap_prec A0.
Proof.
  destruct (returns_Ok (TateAlgebraElement.quo_rem 1 x (TateAlgebraElement.Single x) false))
    as [[q r] E]; [vm_refl|].
  destruct (quo_rem_keeps _ _ _ _ _ _ E) as (Hlen & _ & _ & Hr).
  exists q, r. split; [exact E|]. split; [exact Hlen|exact Hr].
Defined.

(** X17 at the zero series divided by [x]. *)
Lemma quo_rem_of_zero_witness :
  ∃ q r, TateAlgebraElement.quo_rem 0 zero (TateAlgebraElement.Single x) false = Ok (q, r)
         ∧ length q = 1%nat
         ∧ TateAlgebraElement.is_zero r None = true.
Proof.
  assert (Hz : TateAlgebraElement.is_zero zero None = true) by vm_refl.
  destruct (quo_rem_of_zero 0 zero (TateAlgebraElement.Single x) false Hz)
    as (q & r & E & Hlen & _ & Hr).
  exists q, r. split; [exact E|]. split; [exact Hlen|exact Hr].
Defined.

(** X18 at [1 + 2*x], whose two terms are moved in two rounds. *)
Lemma quo_rem_no_divisors_witness :
  ∃ f0 r,
    TateAlgebraElement.add_bigoh one_plus_2x (cap_prec A0) = Ok f0
    ∧ TateAlgebraElement.quo_rem 2 one_plus_2x (TateAlgebraElement.Several []) false
      = Ok ([], r)
    ∧ TateAlgebraElement._poly r = TateAlgebraElement._poly f0.
Proof.
  destruct (quo_rem_no_divisors 2 one_plus_2x false sub_self_zero bigoh_stable)
    as (f0 & r & Hf0 & Hqr & _ & _ & Hpoly).
  { replace (size (TateAlgebraElement._poly one_plus_2x)) with 2%nat
      by (symmetry; vm_refl).
    apply Nat.le_refl. }
  exists f0, r. split; [exact Hf0|]. split; [exact Hqr|exact Hpoly].
Defined.

(** X19 at [x^2] divided by [x] over [Zp(2, 10)]. *)
Lemma mod_floordiv_quo_rem_witness :
  ∃ q0 r,
    TateAlgebraElement.quo_rem 1 x_squared (TateAlgebraElement.Single x) false
      = Ok ([q0], r)
    ∧ TateAlgebraElement.__mod__ 1 x_squared (TateAlgebraElement.Single x) = Ok r
    ∧ TateAlgebraElement.__floordiv__ 1 x_squared (TateAlgebraElement.Single x)
      = Ok (TateAlgebraElement.Quotient q0).
Proof.
  destruct (returns_Ok (TateAlgebraElement.quo_rem 1 x_squared
                          (TateAlgebraElement.Single x) false))
    as [[q r] E]; [vm_refl|].
  destruct (mod_floordiv_quo_rem _ _ _ _ _ E) as (Hmod & q0 & Hq & Hfd).
  exists q0, r. rewrite <- Hq. split; [exact E|]. split; [exact Hmod|exact Hfd].
Defined.







End MoreInstances.
